(** * Verification of the tox TCP relay core and the old state-format codec

    Shallow embedding of
    - [src/toxcore/tcp/server/links.rs]   (module [Links]),
    - [src/toxcore/tcp/server/client.rs]  and
      [src/toxcore/tcp/server/server.rs]  (module [Relay]),
    - [src/toxcore/state_format/old.rs]   (module [OldFormat]).

    A [PublicKey] of the relay is a 32-byte key; the relay only compares
    keys for equality and hashes them, so it is represented by the number
    the 32 bytes spell ([N]).  The codec, which reads and writes the bytes,
    uses the byte list itself. *)

From Stdlib Require Import ZArith Lia String.
From stdpp Require Import base gmap list.

Definition PublicKey := N.

(** [pub const MAX_LINKS_N: usize = 240;] *)
Definition MAX_LINKS_N : nat := 240.

(** ** links.rs *)
Module Links.

(** [enum LinkStatus { Registered, Online(u8) }] *)
Inductive LinkStatus :=
| Registered
| Online (to : nat).

(** [struct Link { pk, status }] *)
Record Link := mkLink { link_pk : PublicKey; status : LinkStatus }.

(** [Link::new] *)
Definition link_new (pk : PublicKey) : Link := mkLink pk Registered.

(** [Link::downgrade] on a [&mut Link] *)
Definition link_downgrade (l : Link) : Link := mkLink (link_pk l) Registered.

(** [Link::upgrade] on a [&mut Link] *)
Definition link_upgrade (l : Link) (to : nat) : Link := mkLink (link_pk l) (Online to).

(** [struct Links { links: [Option<Link>; MAX_LINKS_N], pk_to_id: HashMap<PublicKey, u8> }] *)
Record Links := mkLinks {
  links : list (option Link);
  pk_to_id : gmap PublicKey nat
}.

(** [index as u8] *)
Definition as_u8 (n : nat) : nat := n mod 256.

(** [Links::new]: [[None; 240]] and an empty map. *)
Definition new : Links := mkLinks (replicate MAX_LINKS_N None) ∅.

(** [self.links.iter().position(|link| link.is_none())] *)
Fixpoint position_none (l : list (option Link)) : option nat :=
  match l with
  | [] => None
  | None :: _ => Some 0
  | Some _ :: l' => S <$> position_none l'
  end.

(** [Links::insert]: returns the new table and the result. *)
Definition insert (pk : PublicKey) (t : Links) : Links * option nat :=
  match pk_to_id t !! pk with
  | Some index => (t, Some index)
  | None =>
      match position_none (links t) with
      | Some index =>
          (mkLinks (<[index := Some (link_new pk)]> (links t))
                   (<[pk := as_u8 index]> (pk_to_id t)),
           Some (as_u8 index))
      | None => (t, None)
      end
  end.

(** [Links::by_id] *)
Definition by_id (index : nat) (t : Links) : option Link :=
  if decide (index < MAX_LINKS_N) then
    match links t !! index with
    | Some l => l
    | None => None
    end
  else None.

(** [Links::id_by_pk] *)
Definition id_by_pk (pk : PublicKey) (t : Links) : option nat := pk_to_id t !! pk.

(** [Links::take]: [self.links[index].take()] then [pk_to_id.remove]. *)
Definition take (index : nat) (t : Links) : Links * option Link :=
  if decide (index < MAX_LINKS_N) then
    match links t !! index with
    | Some (Some link) =>
        (mkLinks (<[index := None]> (links t)) (delete (link_pk link) (pk_to_id t)),
         Some link)
    | _ => (t, None)
    end
  else (t, None).

(** [Links::downgrade].  [if let Some(mut link) = self.links[index]] binds a
    copy of the [Copy] value [Link]; [link.downgrade()] updates that copy,
    which is dropped at the end of the block: the slot is not written. *)
Definition downgrade (index : nat) (t : Links) : Links :=
  if decide (index < MAX_LINKS_N) then
    match links t !! index with
    | Some (Some link) => let _copy := link_downgrade link in t
    | _ => t
    end
  else t.

(** [Links::upgrade], with the same copy semantics as [downgrade]. *)
Definition upgrade (index to : nat) (t : Links) : Links :=
  if decide (index < MAX_LINKS_N) then
    match links t !! index with
    | Some (Some link) => let _copy := link_upgrade link to in t
    | _ => t
    end
  else t.

(** Tables reachable from [Links::new] through the public operations. *)
Inductive reachable : Links -> Prop :=
| reach_new : reachable new
| reach_insert t pk : reachable t -> reachable (insert pk t).1
| reach_take t i : reachable t -> reachable (take i t).1
| reach_upgrade t i to : reachable t -> reachable (upgrade i to t)
| reach_downgrade t i : reachable t -> reachable (downgrade i t).

(** [pk] is stored in slot [i] of the slot array. *)
Definition occupies (t : Links) (pk : PublicKey) (i : nat) : Prop :=
  exists l, links t !! i = Some (Some l) /\ link_pk l = pk.

(** Every one of the 240 slots holds a link. *)
Definition all_occupied (t : Links) : Prop :=
  forall i, i < MAX_LINKS_N -> exists l, links t !! i = Some (Some l).

(** Status stored in slot [i]. *)
Definition status_at (t : Links) (i : nat) : option LinkStatus :=
  status <$> by_id i t.

(** Calls [insert] for each key in turn and collects the results. *)
Fixpoint insert_all (ks : list PublicKey) (t : Links) : Links * list (option nat) :=
  match ks with
  | [] => (t, [])
  | k :: ks' =>
      let '(t1, r) := insert k t in
      let '(t2, rs) := insert_all ks' t1 in
      (t2, r :: rs)
  end.

(** The slot array has 240 entries and agrees with the [pk -> slot] index. *)
Definition inv (t : Links) : Prop :=
  length (links t) = MAX_LINKS_N /\
  forall pk i, pk_to_id t !! pk = Some i <-> occupies t pk i.

End Links.

(** ** client.rs and server.rs *)
Module Relay.
Import Links.

(** [std::net::IpAddr], an address as the number its octets spell. *)
Inductive IpAddr :=
| V4 (a : N)
| V6 (a : N).

#[global] Instance IpAddr_eq_dec : EqDecision IpAddr.
Proof. solve_decision. Defined.

#[global] Instance IpAddr_countable : Countable IpAddr.
Proof.
  refine (inj_countable'
            (fun a => match a with V4 n => inl n | V6 n => inr n end)
            (fun s => match s with inl n => V4 n | inr n => V6 n end) _).
  by intros [].
Defined.

(** Instants and durations in nanoseconds. *)
Definition Instant := Z.
Definition from_secs (s : Z) : Z := (s * 1000000000)%Z.

(** [TCP_PING_FREQUENCY] and [TCP_PING_TIMEOUT] in seconds. *)
Definition TCP_PING_FREQUENCY : Z := 30.
Definition TCP_PING_TIMEOUT : Z := 10.

(** The packets of [toxcore::tcp::packet] (wire encoding is out of scope). *)
Record OnionRequest := mkOnionRequest {
  onion_nonce : list Z;
  onion_ip_port : list Z;
  onion_temporary_pk : PublicKey;
  onion_payload : list Z
}.

Inductive Packet :=
| RouteRequest (pk : PublicKey)
| RouteResponse (pk : PublicKey) (connection_id : nat)
| ConnectNotification (connection_id : nat)
| DisconnectNotification (connection_id : nat)
| PingRequest (ping_id : Z)
| PongResponse (ping_id : Z)
| OobSend (destination_pk : PublicKey) (data : list Z)
| OobReceive (sender_pk : PublicKey) (data : list Z)
| OnionRequestP (req : OnionRequest)
| OnionResponse (payload : list Z)
| Data (connection_id : nat) (data : list Z).

(** [send] propagates a closed channel, [send_ignore_error] swallows it. *)
Inductive SendPolicy := Strict | IgnoreError.

(** One send performed by a returned future: a packet to the outbound
    channel of the client stored under a key, or a pair to the onion sink. *)
Inductive Send :=
| SendTo (to : PublicKey) (p : Packet) (policy : SendPolicy)
| SendOnion (req : OnionRequest) (ip : IpAddr) (port : N).

(** [IoFuture<()>]: an immediate error ([future::err]) or the sends it
    performs when driven, in the order it drives them. *)
Inductive IoFuture :=
| FutErr (msg : string)
| FutSends (sends : list Send).

Definition fut_ok : IoFuture := FutSends [].

(** [Client] (the outbound channel is represented by the client's key). *)
Record Client := mkClient {
  pk : PublicKey;
  ip_addr : IpAddr;
  port : N;
  links_of : Links;
  ping_id : Z;
  last_pinged : Instant;
  last_pong_resp : Instant
}.

(** [Client::new] at time [now]. *)
Definition client_new (pk : PublicKey) (ip : IpAddr) (port : N) (now : Instant) : Client :=
  mkClient pk ip port Links.new 0%Z now now.

Definition set_links (c : Client) (l : Links) : Client :=
  mkClient (pk c) (ip_addr c) (port c) l (ping_id c) (last_pinged c) (last_pong_resp c).

(** [Client::set_last_pong_resp] *)
Definition set_last_pong_resp (c : Client) (t : Instant) : Client :=
  mkClient (pk c) (ip_addr c) (port c) (links_of c) (ping_id c) (last_pinged c) t.

(** [clock_elapsed(t)] *)
Definition clock_elapsed (now t : Instant) : Z := (now - t)%Z.

(** [Client::is_pong_timedout] *)
Definition is_pong_timedout (now : Instant) (c : Client) : bool :=
  bool_decide (clock_elapsed now (last_pong_resp c) >
               from_secs (TCP_PING_TIMEOUT + TCP_PING_FREQUENCY))%Z.

(** [Client::is_ping_interval_passed] *)
Definition is_ping_interval_passed (now : Instant) (c : Client) : bool :=
  bool_decide (clock_elapsed now (last_pinged c) >= from_secs TCP_PING_FREQUENCY)%Z.

(** Modelled from the spec: [Client::get_connection_id], missing from
    client.rs (its doc comment: returns [Some(x+16)]; spec 4.1: wire id is
    slot + 16). *)
Definition get_connection_id (c : Client) (peer : PublicKey) : option nat :=
  (fun x => x + 16) <$> id_by_pk peer (links_of c).

(** Modelled from the spec: [Client::insert_connection_id] (same source). *)
Definition insert_connection_id (c : Client) (peer : PublicKey) : Client * option nat :=
  let '(l, r) := Links.insert peer (links_of c) in
  (set_links c l, (fun x => x + 16) <$> r).

(** Modelled from the spec: [Client::get_link]: wire ids below 16 are
    invalid; otherwise the peer key of slot [connection_id - 16]. *)
Definition get_link (c : Client) (connection_id : nat) : option PublicKey :=
  if decide (16 <= connection_id) then
    link_pk <$> by_id (connection_id - 16) (links_of c)
  else None.

(** Modelled from the spec: [Client::take_link], [take(wire_id - 16)]. *)
Definition take_link (c : Client) (connection_id : nat) : Client * option PublicKey :=
  if decide (16 <= connection_id) then
    let '(l, r) := Links.take (connection_id - 16) (links_of c) in
    (set_links c l, link_pk <$> r)
  else (c, None).

(** Modelled from the spec: [Client::iter_links], the slots in order,
    each as the peer key it holds. *)
Definition iter_links (c : Client) : list (option PublicKey) :=
  map (fun o => link_pk <$> o) (links (links_of c)).

(** Modelled from the spec: [gen_ping_id] (toxcore::utils) draws random
    [u64] values until one is nonzero.  The random source is the list of
    draws; [None] when it runs dry (the loop would not return). *)
Fixpoint gen_ping_id (draws : list Z) : option (Z * list Z) :=
  match draws with
  | [] => None
  | d :: ds => if decide (d = 0%Z) then gen_ping_id ds else Some (d, ds)
  end.

(** [Client::send_ping_request] *)
Definition send_ping_request (now : Instant) (key : PublicKey) (c : Client) (draws : list Z)
  : option (Client * Send * list Z) :=
  match gen_ping_id draws with
  | Some (id, draws') =>
      Some (mkClient (pk c) (ip_addr c) (port c) (links_of c) id now (last_pong_resp c),
            SendTo key (PingRequest id) Strict, draws')
  | None => None
  end.

(** [ServerState] and [Server] ([onion_sink] is [Some] or [None]). *)
Record ServerState := mkState {
  connected_clients : gmap PublicKey Client;
  keys_by_addr : gmap (IpAddr * N) PublicKey
}.

Record Server := mkServer {
  state : ServerState;
  onion_sink : bool
}.

Definition empty_state : ServerState := mkState ∅ ∅.

Definition set_state (s : Server) (st : ServerState) : Server := mkServer st (onion_sink s).

Definition put_client (st : ServerState) (key : PublicKey) (c : Client) : ServerState :=
  mkState (<[key := c]> (connected_clients st)) (keys_by_addr st).

(** [Server::insert] *)
Definition server_insert (client : Client) (st : ServerState) : ServerState :=
  mkState (<[pk client := client]> (connected_clients st))
          (<[(ip_addr client, port client) := pk client]> (keys_by_addr st)).

(** The notification future built for one slot of the departing client. *)
Definition shutdown_notification (st : ServerState) (a_pk : PublicKey)
    (slot : option PublicKey) : list Send :=
  match slot with
  | Some client_b_pk =>
      match connected_clients st !! client_b_pk with
      | Some client_b =>
          match get_connection_id client_b a_pk with
          | Some a_id_in_client_b =>
              [SendTo client_b_pk (DisconnectNotification a_id_in_client_b) IgnoreError]
          | None => []
          end
      | None => []
      end
  | None => []
  end.

(** [Server::shutdown_client_inner] *)
Definition shutdown_client_inner (key : PublicKey) (st : ServerState) : ServerState * IoFuture :=
  match connected_clients st !! key with
  | None => (st, FutErr "Cannot find client by pk to shutdown it")
  | Some client_a =>
      let st1 := mkState (delete key (connected_clients st)) (keys_by_addr st) in
      let st2 := mkState (connected_clients st1)
                         (delete (ip_addr client_a, port client_a) (keys_by_addr st1)) in
      (st2, FutSends (mbind (shutdown_notification st2 key) (iter_links client_a)))
  end.

(** [Server::handle_route_request] *)
Definition handle_route_request (key : PublicKey) (packet_pk : PublicKey) (st : ServerState)
  : ServerState * IoFuture :=
  match connected_clients st !! key with
  | None => (st, FutErr "RouteRequest: no such PK")
  | Some client_a =>
      if decide (key = packet_pk) then
        (st, FutSends [SendTo key (RouteResponse key 0) Strict])
      else match get_connection_id client_a packet_pk with
      | Some b_id_in_client_a =>
          (st, FutSends [SendTo key (RouteResponse packet_pk b_id_in_client_a) Strict])
      | None =>
          let '(client_a', r) := insert_connection_id client_a packet_pk in
          let st' := put_client st key client_a' in
          match r with
          | None => (st', FutSends [SendTo key (RouteResponse packet_pk 0) Strict])
          | Some b_id_in_client_a =>
              let resp := SendTo key (RouteResponse packet_pk b_id_in_client_a) Strict in
              match connected_clients st' !! packet_pk with
              | Some client_b =>
                  match get_connection_id client_b key with
                  | Some a_id_in_client_b =>
                      (st', FutSends
                              [resp;
                               SendTo key (ConnectNotification b_id_in_client_a) IgnoreError;
                               SendTo packet_pk (ConnectNotification a_id_in_client_b) IgnoreError])
                  | None => (st', FutSends [resp])
                  end
              | None => (st', FutSends [resp])
              end
          end
      end
  end.

(** [Server::handle_disconnect_notification] *)
Definition handle_disconnect_notification (key : PublicKey) (connection_id : nat) (st : ServerState)
  : ServerState * IoFuture :=
  match connected_clients st !! key with
  | None => (st, FutErr "DisconnectNotification: no such PK")
  | Some client_a =>
      let '(client_a', r) := take_link client_a connection_id in
      let st' := put_client st key client_a' in
      match r with
      | None => (st', fut_ok)
      | Some client_b_pk =>
          match connected_clients st' !! client_b_pk with
          | Some client_b =>
              match get_connection_id client_b key with
              | Some a_id_in_client_b =>
                  (st', FutSends [SendTo client_b_pk (DisconnectNotification a_id_in_client_b) IgnoreError])
              | None => (st', fut_ok)
              end
          | None => (st', fut_ok)
          end
      end
  end.

(** [Server::handle_ping_request] *)
Definition handle_ping_request (key : PublicKey) (id : Z) (st : ServerState) : IoFuture :=
  if decide (id = 0%Z) then FutErr "PingRequest.ping_id == 0"
  else match connected_clients st !! key with
  | Some _ => FutSends [SendTo key (PongResponse id) Strict]
  | None => FutErr "PingRequest: no such PK"
  end.

(** [Server::handle_pong_response] *)
Definition handle_pong_response (now : Instant) (key : PublicKey) (id : Z) (st : ServerState)
  : ServerState * IoFuture :=
  if decide (id = 0%Z) then (st, FutErr "PongResponse.ping_id == 0")
  else match connected_clients st !! key with
  | Some client_a =>
      if decide (id = ping_id client_a) then
        (put_client st key (set_last_pong_resp client_a now), fut_ok)
      else (st, FutErr "PongResponse.ping_id does not match")
  | None => (st, FutErr "PongResponse: no such PK")
  end.

(** [Server::handle_oob_send] *)
Definition handle_oob_send (key : PublicKey) (dst : PublicKey) (data : list Z) (st : ServerState)
  : IoFuture :=
  if decide (length data = 0 \/ 1024 < length data) then FutErr "OobSend wrong data length"
  else match connected_clients st !! dst with
  | Some _ => FutSends [SendTo dst (OobReceive key data) IgnoreError]
  | None => fut_ok
  end.

(** [Server::handle_onion_request] *)
Definition handle_onion_request (s : Server) (key : PublicKey) (req : OnionRequest) : IoFuture :=
  if onion_sink s then
    match connected_clients (state s) !! key with
    | Some client => FutSends [SendOnion req (ip_addr client) (port client)]
    | None => FutErr "PongResponse: no such PK"
    end
  else fut_ok.

(** [Server::handle_data] *)
Definition handle_data (key : PublicKey) (connection_id : nat) (data : list Z) (st : ServerState)
  : IoFuture :=
  match connected_clients st !! key with
  | None => FutErr "Data: no such PK"
  | Some client_a =>
      match get_link client_a connection_id with
      | None => fut_ok
      | Some client_b_pk =>
          match connected_clients st !! client_b_pk with
          | Some client_b =>
              match get_connection_id client_b key with
              | Some a_id_in_client_b =>
                  FutSends [SendTo client_b_pk (Data a_id_in_client_b data) Strict]
              | None => fut_ok
              end
          | None => fut_ok
          end
      end
  end.

(** [Server::handle_packet] at time [now]. *)
Definition handle_packet (now : Instant) (key : PublicKey) (packet : Packet) (s : Server)
  : Server * IoFuture :=
  let st := state s in
  match packet with
  | RouteRequest p =>
      let '(st', f) := handle_route_request key p st in (set_state s st', f)
  | RouteResponse _ _ => (s, FutErr "Client must not send RouteResponse to server")
  | ConnectNotification _ => (s, fut_ok)
  | DisconnectNotification id =>
      let '(st', f) := handle_disconnect_notification key id st in (set_state s st', f)
  | PingRequest id => (s, handle_ping_request key id st)
  | PongResponse id =>
      let '(st', f) := handle_pong_response now key id st in (set_state s st', f)
  | OobSend dst data => (s, handle_oob_send key dst data st)
  | OobReceive _ _ => (s, FutErr "Client must not send OobReceive to server")
  | OnionRequestP req => (s, handle_onion_request s key req)
  | OnionResponse _ => (s, FutErr "Client must not send OnionResponse to server")
  | Data id data => (s, handle_data key id data st)
  end.

(** [Server::shutdown_client] *)
Definition shutdown_client (key : PublicKey) (s : Server) : Server * IoFuture :=
  let '(st', f) := shutdown_client_inner key (state s) in (set_state s st', f).

(** Sends of a future whose errors are discarded ([.then(|_| Ok(()))]). *)
Definition sends_of (f : IoFuture) : list Send :=
  match f with FutErr _ => [] | FutSends l => l end.

(** [Server::remove_timedout_clients]: the keys are collected first, then
    each one is shut down (eagerly, by [futures_unordered]). *)
Fixpoint shutdown_all (keys : list PublicKey) (st : ServerState) : ServerState * list Send :=
  match keys with
  | [] => (st, [])
  | k :: ks =>
      let '(st1, f) := shutdown_client_inner k st in
      let '(st2, l) := shutdown_all ks st1 in
      (st2, sends_of f ++ l)
  end.

Definition timedout_keys (now : Instant) (st : ServerState) : list PublicKey :=
  map fst (filter (fun kc => is_pong_timedout now kc.2 = true)
                  (map_to_list (connected_clients st))).

Definition remove_timedout_clients (now : Instant) (st : ServerState) : ServerState * list Send :=
  shutdown_all (timedout_keys now st) st.

(** The [iter_mut().filter(is_ping_interval_passed).map(send_ping_request)]
    pass over the remaining clients. *)
Fixpoint ping_all (now : Instant) (cs : list (PublicKey * Client)) (st : ServerState)
    (draws : list Z) : option (ServerState * list Send) :=
  match cs with
  | [] => Some (st, [])
  | (k, c) :: cs' =>
      if is_ping_interval_passed now c then
        match send_ping_request now k c draws with
        | Some (c', snd, draws') =>
            match ping_all now cs' (put_client st k c') draws' with
            | Some (st', l) => Some (st', snd :: l)
            | None => None
            end
        | None => None
        end
      else ping_all now cs' st draws
  end.

(** [Server::send_pings] *)
Definition send_pings (now : Instant) (draws : list Z) (s : Server) : option (Server * list Send) :=
  let '(st1, removed) := remove_timedout_clients now (state s) in
  match ping_all now (map_to_list (connected_clients st1)) st1 draws with
  | Some (st2, pings) => Some (set_state s st2, removed ++ pings)
  | None => None
  end.

(** Server values reachable from [Server::new()] (with or without an onion
    sink) through [insert], [handle_packet] and [shutdown_client]. *)
Inductive server_reachable : Server -> Prop :=
| sr_new sink : server_reachable (mkServer empty_state sink)
| sr_insert s c : server_reachable s -> server_reachable (set_state s (server_insert c (state s)))
| sr_packet s now key p : server_reachable s -> server_reachable (handle_packet now key p s).1
| sr_shutdown s key : server_reachable s -> server_reachable (shutdown_client key s).1.

(** The same, where every inserted client has a key that is not connected
    and an [(ip, port)] that no connected client has. *)
Inductive server_reachable_fresh : Server -> Prop :=
| srf_new sink : server_reachable_fresh (mkServer empty_state sink)
| srf_insert s c :
    server_reachable_fresh s ->
    connected_clients (state s) !! pk c = None ->
    (forall p c', connected_clients (state s) !! p = Some c' ->
                  (ip_addr c', port c') <> (ip_addr c, port c)) ->
    server_reachable_fresh (set_state s (server_insert c (state s)))
| srf_packet s now key p :
    server_reachable_fresh s -> server_reachable_fresh (handle_packet now key p s).1
| srf_shutdown s key :
    server_reachable_fresh s -> server_reachable_fresh (shutdown_client key s).1.

(** The same, where every inserted client has an [(ip, port)] that no
    connected client has; its key may be connected already (a client that
    reconnects from a new address). *)
Inductive server_reachable_addr_unused : Server -> Prop :=
| sra_new sink : server_reachable_addr_unused (mkServer empty_state sink)
| sra_insert s c :
    server_reachable_addr_unused s ->
    (forall p c', connected_clients (state s) !! p = Some c' ->
                  (ip_addr c', port c') <> (ip_addr c, port c)) ->
    server_reachable_addr_unused (set_state s (server_insert c (state s)))
| sra_packet s now key p :
    server_reachable_addr_unused s -> server_reachable_addr_unused (handle_packet now key p s).1
| sra_shutdown s key :
    server_reachable_addr_unused s -> server_reachable_addr_unused (shutdown_client key s).1.

(** Every connected client is stored under its own key and is the one its
    [(ip, port)] maps to. *)
Definition client_index_agrees (st : ServerState) : Prop :=
  forall p c, connected_clients st !! p = Some c ->
    pk c = p /\ keys_by_addr st !! (ip_addr c, port c) = Some p.

(** Every connected client is stored under its own key and is the one its
    [(ip, port)] maps to; every address entry names a connected client with
    that address. *)
Definition addr_index_agrees (st : ServerState) : Prop :=
  (forall p c, connected_clients st !! p = Some c ->
     pk c = p /\ keys_by_addr st !! (ip_addr c, port c) = Some p) /\
  (forall x p, keys_by_addr st !! x = Some p ->
     exists c, connected_clients st !! p = Some c /\ (ip_addr c, port c) = x).

(** [Server::handle_udp_onion_response]: the client is found through
    [keys_by_addr] and then [connected_clients]. *)
Definition handle_udp_onion_response (ip : IpAddr) (prt : N) (payload : list Z) (s : Server)
  : IoFuture :=
  match keys_by_addr (state s) !! (ip, prt) ≫= fun k => connected_clients (state s) !! k with
  | Some client => FutSends [SendTo (pk client) (OnionResponse payload) Strict]
  | None => FutErr "Cannot find client by ip_addr to send onion response"
  end.

(** Server values reachable as in [server_reachable], where every inserted
    client's link table is reachable from [Links::new] (as for a client
    made by [Client::new] and changed only through the [Links] API). *)
Inductive server_reachable_links : Server -> Prop :=
| srl_new sink : server_reachable_links (mkServer empty_state sink)
| srl_insert s c :
    server_reachable_links s -> Links.reachable (links_of c) ->
    server_reachable_links (set_state s (server_insert c (state s)))
| srl_packet s now key p :
    server_reachable_links s -> server_reachable_links (handle_packet now key p s).1
| srl_shutdown s key :
    server_reachable_links s -> server_reachable_links (shutdown_client key s).1.

End Relay.

(** ** state_format/old.rs *)
Module OldFormat.

Definition bytes := list Z.

(** *** nom 3 parsers *)

(** [nom::IResult] ([Needed] sizes are not kept). *)
Inductive IResult (A : Type) :=
| Done (rest : bytes) (v : A)
| Error
| Incomplete.
Arguments Done {A} rest v.
Arguments Error {A}.
Arguments Incomplete {A}.

Definition Parser (A : Type) := bytes -> IResult A.

(** [do_parse!] sequencing. *)
Definition pbind {A B} (p : Parser A) (f : A -> Parser B) : Parser B :=
  fun i => match p i with
           | Done r v => f v r
           | Error => Error
           | Incomplete => Incomplete
           end.

Notation "x <-- p ;; k" := (pbind p (fun x => k))
  (at level 100, p at next level, right associativity).

(** [value!] *)
Definition pvalue {A} (v : A) : Parser A := fun i => Done i v.

(** [take!(n)] *)
Definition ptake (n : nat) : Parser bytes :=
  fun i => if decide (n <= length i) then Done (drop n i) (firstn n i) else Incomplete.

(** [tag!(t)]: compares the available prefix, then asks for more input. *)
Definition ptag (t : bytes) : Parser bytes :=
  fun i =>
    let m := Nat.min (length t) (length i) in
    if decide (firstn m i = firstn m t) then
      if decide (length i < length t) then Incomplete
      else Done (drop (length t) i) (firstn (length t) i)
    else Error.

(** [rest] *)
Definition prest : Parser bytes := fun i => Done [] i.

(** Little-endian value of a byte string. *)
Fixpoint le_value (l : bytes) : Z :=
  match l with
  | [] => 0%Z
  | b :: l' => (b + 256 * le_value l')%Z
  end.

(** [le_u8], [le_u16], [le_u32], [le_u64], [be_u16] *)
Definition le_u8 : Parser Z := b <-- ptake 1 ;; pvalue (le_value b).
Definition le_u16 : Parser Z := b <-- ptake 2 ;; pvalue (le_value b).
Definition le_u32 : Parser Z := b <-- ptake 4 ;; pvalue (le_value b).
Definition le_u64 : Parser Z := b <-- ptake 8 ;; pvalue (le_value b).
Definition be_u16 : Parser Z := b <-- ptake 2 ;; pvalue (le_value (rev b)).

(** [verify!] *)
Definition pverify {A} (p : Parser A) (f : A -> bool) : Parser A :=
  fun i => match p i with
           | Done r v => if f v then Done r v else Error
           | e => e
           end.

(** [map!] *)
Definition pmap {A B} (p : Parser A) (f : A -> B) : Parser B :=
  fun i => match p i with
           | Done r v => Done r (f v)
           | Error => Error
           | Incomplete => Incomplete
           end.

(** [alt!] of two parsers: the second one is tried on [Error] only. *)
Definition palt {A} (p q : Parser A) : Parser A :=
  fun i => match p i with
           | Error => q i
           | r => r
           end.

(** [flat_map!(p, q)]: [q] runs on the output of [p]; its leftover is dropped. *)
Definition flat_map {A} (p : Parser bytes) (q : Parser A) : Parser A :=
  fun i => match p i with
           | Done r o =>
               match q o with
               | Done _ v => Done r v
               | Error => Error
               | Incomplete => Incomplete
               end
           | Error => Error
           | Incomplete => Incomplete
           end.

(** [length_data!(p)] *)
Definition length_data (p : Parser Z) : Parser bytes :=
  n <-- p ;; ptake (Z.to_nat n).

(** [many0!(p)] of nom 3: stops with [Done] on empty input or on an
    [Error] of [p]; a [Done] that consumes nothing is an [Error].  Every
    iteration consumes input, so [length i + 1] iterations suffice. *)
Fixpoint many0_fuel {A} (fuel : nat) (p : Parser A) (i : bytes) : IResult (list A) :=
  match fuel with
  | O => Error
  | S fuel' =>
      match i with
      | [] => Done [] []
      | _ =>
          match p i with
          | Error => Done i []
          | Incomplete => Incomplete
          | Done r o =>
              if decide (r = i) then Error
              else match many0_fuel fuel' p r with
                   | Done r' os => Done r' (o :: os)
                   | Error => Error
                   | Incomplete => Incomplete
                   end
          end
      end
  end.

Definition many0 {A} (p : Parser A) : Parser (list A) :=
  fun i => many0_fuel (S (length i)) p i.

(** *** cookie_factory generators *)

(** The [n] low bytes of [x], least significant first ([as uN] truncates). *)
Fixpoint le_bytes (n : nat) (x : Z) : bytes :=
  match n with
  | O => []
  | S n' => (x mod 256)%Z :: le_bytes n' (x / 256)%Z
  end.

Definition gen_le_u8 (x : Z) : bytes := le_bytes 1 x.
Definition gen_le_u16 (x : Z) : bytes := le_bytes 2 x.
Definition gen_le_u32 (x : Z) : bytes := le_bytes 4 x.
Definition gen_le_u64 (x : Z) : bytes := le_bytes 8 x.
Definition gen_be_u16 (x : Z) : bytes := rev (le_bytes 2 x).

(** [Vec::resize(n, 0)] *)
Definition resize (n : nat) (l : bytes) : bytes := firstn n l ++ repeat 0%Z (n - length l).

(** *** Data model *)

(** [SECTION_MAGIC] *)
Definition SECTION_MAGIC : bytes := [0xce; 0x01]%Z.

Definition PUBLICKEYBYTES : nat := 32.
Definition SECRETKEYBYTES : nat := 32.
Definition NOSPAMBYTES : nat := 4.
Definition REQUEST_MSG_LEN : nat := 1024.
Definition NAME_LEN : nat := 128.
Definition STATUS_MSG_LEN : nat := 1007.
Definition USER_STATUS_LEN : nat := 1.
Definition NOSPAMKEYSBYTES : nat := NOSPAMBYTES + PUBLICKEYBYTES + SECRETKEYBYTES.
Definition FRIENDSTATEBYTES : nat :=
  1 + PUBLICKEYBYTES + REQUEST_MSG_LEN + 1 + 2 + NAME_LEN + 2 + STATUS_MSG_LEN
  + 1 + 2 + 1 + 3 + NOSPAMBYTES + 8.

(** [PublicKey::from_bytes], [SecretKey::from_bytes], [NoSpam::from_bytes] *)
Definition public_key_from_bytes : Parser bytes := ptake PUBLICKEYBYTES.
Definition secret_key_from_bytes : Parser bytes := ptake SECRETKEYBYTES.
Definition nospam_from_bytes : Parser bytes := ptake NOSPAMBYTES.

(** [struct NospamKeys] *)
Record NospamKeys := mkNospamKeys { nospam : bytes; nk_pk : bytes; sk : bytes }.

(** [struct Name(pub Vec<u8>)] and [struct StatusMsg(pub Vec<u8>)] *)
Record Name := mkName { name_bytes : bytes }.
Record StatusMsg := mkStatusMsg { status_msg_bytes : bytes }.

(** Octets of an [IpAddr] ([Ipv4Addr]: 4, [Ipv6Addr]: 16). *)
Inductive IpAddr :=
| V4 (octets : bytes)
| V6 (octets : bytes).

Definition ip_octets (a : IpAddr) : bytes := match a with V4 o => o | V6 o => o end.

(** [ProtocolType] *)
Inductive ProtocolType := UDP | TCP.

(** [struct OldIpPort] *)
Record OldIpPort := mkOldIpPort { protocol : ProtocolType; ip_addr : IpAddr; port : Z }.

(** [struct TcpUdpPackedNode] *)
Record TcpUdpPackedNode := mkTcpUdpPackedNode { ip_port : OldIpPort; tn_pk : bytes }.

(** Modelled from the spec: [PackedNode] (toxcore/dht/packed_node.rs is
    not under src/): a [(public_key, socket_addr)] pair, laid out like the
    UDP [OldIpPort] of spec 4.5 ([2] = IPv4, [10] = IPv6, address bytes,
    big-endian port) followed by the key. *)
Record PackedNode := mkPackedNode { pn_ip : IpAddr; pn_port : Z; pn_pk : bytes }.

(** [enum FriendStatus] *)
Inductive FriendStatus := NotFriend | Added | FrSent | Confirmed | FOnline.

Definition friend_status_u8 (s : FriendStatus) : Z :=
  match s with NotFriend => 0 | Added => 1 | FrSent => 2 | Confirmed => 3 | FOnline => 4 end%Z.

(** [enum UserWorkingStatus] *)
Inductive UserWorkingStatus := UOnline | Away | Busy.

Definition user_status_u8 (s : UserWorkingStatus) : Z :=
  match s with UOnline => 0 | Away => 1 | Busy => 2 end%Z.

(** [struct FriendState] *)
Record FriendState := mkFriendState {
  friend_status : FriendStatus;
  fs_pk : bytes;
  fr_msg : bytes;
  fs_name : Name;
  fs_status_msg : StatusMsg;
  user_status : UserWorkingStatus;
  fs_nospam : bytes;
  last_seen : Z
}.

(** [enum Section] (the payload structs [DhtState], [Friends], [UserStatus],
    [TcpRelays], [PathNodes] and [Eof] are inlined). *)
Inductive Section :=
| SNospamKeys (p : NospamKeys)
| SDhtState (nodes : list PackedNode)
| SFriends (friends : list FriendState)
| SName (p : Name)
| SStatusMsg (p : StatusMsg)
| SUserStatus (s : UserWorkingStatus)
| STcpRelays (nodes : list TcpUdpPackedNode)
| SPathNodes (nodes : list TcpUdpPackedNode)
| SEof.

(** [struct State { sections }] *)
Record State := mkState { sections : list Section }.

(** *** Codecs *)

(** [NospamKeys::from_bytes] / [to_bytes] *)
Definition nospam_keys_from_bytes : Parser NospamKeys :=
  _t <-- ptag [0x01; 0x00]%Z ;;
  _m <-- ptag SECTION_MAGIC ;;
  ns <-- nospam_from_bytes ;;
  p <-- public_key_from_bytes ;;
  s <-- secret_key_from_bytes ;;
  pvalue (mkNospamKeys ns p s).

Definition nospam_keys_to_bytes (v : NospamKeys) : bytes :=
  gen_le_u16 0x0001 ++ SECTION_MAGIC ++ nospam v ++ nk_pk v ++ sk v.

(** [Name::from_bytes] / [to_bytes] *)
Definition name_from_bytes : Parser Name :=
  _t <-- ptag [0x04; 0x00]%Z ;;
  _m <-- ptag SECTION_MAGIC ;;
  b <-- prest ;;
  pvalue (mkName b).

Definition name_to_bytes (v : Name) : bytes :=
  gen_le_u16 0x0004 ++ SECTION_MAGIC ++ name_bytes v.

(** [StatusMsg::from_bytes] / [to_bytes] *)
Definition status_msg_from_bytes : Parser StatusMsg :=
  _t <-- ptag [0x05; 0x00]%Z ;;
  _m <-- ptag SECTION_MAGIC ;;
  b <-- prest ;;
  pvalue (mkStatusMsg b).

Definition status_msg_to_bytes (v : StatusMsg) : bytes :=
  gen_le_u16 0x0005 ++ SECTION_MAGIC ++ status_msg_bytes v.

(** [UserWorkingStatus::from_bytes]: [switch!(le_u8, 0 | 1 | 2)] *)
Definition user_working_status_from_bytes : Parser UserWorkingStatus :=
  b <-- le_u8 ;;
  match b with
  | 0%Z => pvalue UOnline
  | 1%Z => pvalue Away
  | 2%Z => pvalue Busy
  | _ => fun _ => Error
  end.

(** [UserStatus::from_bytes] / [to_bytes] *)
Definition user_status_from_bytes : Parser UserWorkingStatus :=
  _t <-- ptag [0x06; 0x00]%Z ;;
  _m <-- ptag SECTION_MAGIC ;;
  user_working_status_from_bytes.

Definition user_status_to_bytes (v : UserWorkingStatus) : bytes :=
  gen_le_u16 0x0006 ++ SECTION_MAGIC ++ gen_le_u8 (user_status_u8 v).

(** [Eof::from_bytes] / [to_bytes] *)
Definition eof_from_bytes : Parser unit :=
  _t <-- ptag [0xff; 0x00]%Z ;;
  _m <-- ptag SECTION_MAGIC ;;
  pvalue tt.

Definition eof_to_bytes : bytes := gen_le_u16 0x00ff ++ SECTION_MAGIC.

(** [Ipv4Addr::from_bytes], [Ipv6Addr::from_bytes] *)
Definition ipv4_from_bytes : Parser IpAddr := pmap (ptake 4) V4.
Definition ipv6_from_bytes : Parser IpAddr := pmap (ptake 16) V6.

(** [IpAddr::to_bytes]: the octets. *)
Definition ip_addr_to_bytes (a : IpAddr) : bytes := ip_octets a.

Definition is_ipv4 (a : IpAddr) : bool := match a with V4 _ => true | V6 _ => false end.

(** [OldIpPort::ip_type] *)
Definition ip_type (v : OldIpPort) : Z :=
  if is_ipv4 (ip_addr v) then
    match protocol v with UDP => 2 | TCP => 130 end%Z
  else
    match protocol v with UDP => 10 | TCP => 138 end%Z.

(** [OldIpPort::from_udp_bytes] *)
Definition old_ip_port_from_udp_bytes : Parser OldIpPort :=
  t <-- le_u8 ;;
  a <-- (match t with
         | 2%Z => ipv4_from_bytes
         | 10%Z => ipv6_from_bytes
         | _ => fun _ => Error
         end) ;;
  p <-- be_u16 ;;
  pvalue (mkOldIpPort UDP a p).

(** [OldIpPort::from_tcp_bytes] *)
Definition old_ip_port_from_tcp_bytes : Parser OldIpPort :=
  t <-- le_u8 ;;
  a <-- (match t with
         | 130%Z => ipv4_from_bytes
         | 138%Z => ipv6_from_bytes
         | _ => fun _ => Error
         end) ;;
  p <-- be_u16 ;;
  pvalue (mkOldIpPort TCP a p).

(** [OldIpPort::from_bytes] / [to_bytes] *)
Definition old_ip_port_from_bytes : Parser OldIpPort :=
  palt old_ip_port_from_udp_bytes old_ip_port_from_tcp_bytes.

Definition old_ip_port_to_bytes (v : OldIpPort) : bytes :=
  [ip_type v] ++ ip_addr_to_bytes (ip_addr v) ++ gen_be_u16 (port v).

(** [TcpUdpPackedNode::from_bytes] / [to_bytes] *)
Definition tcp_udp_packed_node_from_bytes : Parser TcpUdpPackedNode :=
  ipp <-- old_ip_port_from_bytes ;;
  p <-- public_key_from_bytes ;;
  pvalue (mkTcpUdpPackedNode ipp p).

Definition tcp_udp_packed_node_to_bytes (v : TcpUdpPackedNode) : bytes :=
  old_ip_port_to_bytes (ip_port v) ++ tn_pk v.

(** Modelled from the spec: [PackedNode::from_bytes] / [to_bytes]. *)
Definition packed_node_from_bytes : Parser PackedNode :=
  t <-- le_u8 ;;
  a <-- (match t with
         | 2%Z => ipv4_from_bytes
         | 10%Z => ipv6_from_bytes
         | _ => fun _ => Error
         end) ;;
  p <-- be_u16 ;;
  k <-- public_key_from_bytes ;;
  pvalue (mkPackedNode a p k).

Definition packed_node_to_bytes (v : PackedNode) : bytes :=
  [if is_ipv4 (pn_ip v) then 2%Z else 10%Z] ++ ip_addr_to_bytes (pn_ip v)
  ++ gen_be_u16 (pn_port v) ++ pn_pk v.

(** [DHT_MAGICAL], [DHT_SECTION_TYPE], [DHT_2ND_MAGICAL] *)
Definition DHT_MAGICAL : Z := 0x0159000d.
Definition DHT_SECTION_TYPE : Z := 0x0004.
Definition DHT_2ND_MAGICAL : Z := 0x11ce.

(** [DhtState::from_bytes] *)
Definition dht_state_from_bytes : Parser (list PackedNode) :=
  _t <-- ptag [0x02; 0x00]%Z ;;
  _m <-- ptag SECTION_MAGIC ;;
  _a <-- pverify le_u32 (fun v => bool_decide (v = DHT_MAGICAL)) ;;
  num_of_bytes <-- le_u32 ;;
  _b <-- pverify le_u16 (fun v => bool_decide (v = DHT_SECTION_TYPE)) ;;
  _c <-- pverify le_u16 (fun v => bool_decide (v = DHT_2ND_MAGICAL)) ;;
  nodes <-- flat_map (ptake (Z.to_nat num_of_bytes)) (many0 packed_node_from_bytes) ;;
  pvalue nodes.

(** The byte count summed over separately encoded items
    ([size] returned by each [to_bytes] call). *)
Definition sum_sizes {A} (enc : A -> bytes) (l : list A) : Z :=
  fold_left (fun acc x => acc + Z.of_nat (length (enc x)))%Z l 0%Z.

(** [DhtState::to_bytes] *)
Definition dht_state_to_bytes (nodes : list PackedNode) : bytes :=
  gen_le_u16 0x0002 ++ SECTION_MAGIC ++ gen_le_u32 DHT_MAGICAL
  ++ gen_le_u32 (sum_sizes packed_node_to_bytes nodes)
  ++ gen_le_u16 DHT_SECTION_TYPE ++ gen_le_u16 DHT_2ND_MAGICAL
  ++ mbind packed_node_to_bytes nodes.

(** [FriendStatus::from_bytes] *)
Definition friend_status_from_bytes : Parser FriendStatus :=
  b <-- le_u8 ;;
  match b with
  | 0%Z => pvalue NotFriend
  | 1%Z => pvalue Added
  | 2%Z => pvalue FrSent
  | 3%Z => pvalue Confirmed
  | 4%Z => pvalue FOnline
  | _ => fun _ => Error
  end.

(** [FriendState::from_bytes] *)
Definition friend_state_from_bytes : Parser FriendState :=
  fst_ <-- friend_status_from_bytes ;;
  p <-- public_key_from_bytes ;;
  fr_msg_bytes <-- ptake REQUEST_MSG_LEN ;;
  _p1 <-- ptake 1 ;;
  fr_msg_len <-- be_u16 ;;
  _v1 <-- pverify (pvalue fr_msg_len) (fun len => bool_decide (len <= Z.of_nat REQUEST_MSG_LEN)%Z) ;;
  name_bytes_ <-- ptake NAME_LEN ;;
  name_len <-- be_u16 ;;
  _v2 <-- pverify (pvalue name_len) (fun len => bool_decide (len <= Z.of_nat NAME_LEN)%Z) ;;
  status_bytes <-- ptake STATUS_MSG_LEN ;;
  _p2 <-- ptake 1 ;;
  status_msg_len <-- be_u16 ;;
  _v3 <-- pverify (pvalue status_msg_len) (fun len => bool_decide (len <= Z.of_nat STATUS_MSG_LEN)%Z) ;;
  us <-- user_working_status_from_bytes ;;
  _p3 <-- ptake 3 ;;
  ns <-- nospam_from_bytes ;;
  seen <-- le_u64 ;;
  pvalue (mkFriendState fst_ p (firstn (Z.to_nat fr_msg_len) fr_msg_bytes)
            (mkName (firstn (Z.to_nat name_len) name_bytes_))
            (mkStatusMsg (firstn (Z.to_nat status_msg_len) status_bytes))
            us ns seen).

(** [FriendState::to_bytes] *)
Definition friend_state_to_bytes (v : FriendState) : bytes :=
  gen_le_u8 (friend_status_u8 (friend_status v)) ++ fs_pk v
  ++ resize REQUEST_MSG_LEN (fr_msg v) ++ gen_le_u8 0
  ++ gen_be_u16 (Z.of_nat (length (fr_msg v)))
  ++ resize NAME_LEN (name_bytes (fs_name v))
  ++ gen_be_u16 (Z.of_nat (length (name_bytes (fs_name v))))
  ++ resize STATUS_MSG_LEN (status_msg_bytes (fs_status_msg v)) ++ gen_le_u8 0
  ++ gen_be_u16 (Z.of_nat (length (status_msg_bytes (fs_status_msg v))))
  ++ gen_le_u8 (user_status_u8 (user_status v)) ++ gen_le_u8 0 ++ gen_le_u16 0
  ++ fs_nospam v ++ gen_le_u64 (last_seen v).

(** [Friends::from_bytes] / [to_bytes] *)
Definition friends_from_bytes : Parser (list FriendState) :=
  _t <-- ptag [0x03; 0x00]%Z ;;
  _m <-- ptag SECTION_MAGIC ;;
  many0 (flat_map (ptake FRIENDSTATEBYTES) friend_state_from_bytes).

Definition friends_to_bytes (l : list FriendState) : bytes :=
  gen_le_u16 0x0003 ++ SECTION_MAGIC ++ mbind friend_state_to_bytes l.

(** [TcpRelays::from_bytes] / [to_bytes] *)
Definition tcp_relays_from_bytes : Parser (list TcpUdpPackedNode) :=
  _t <-- ptag [0x0a; 0x00]%Z ;;
  _m <-- ptag SECTION_MAGIC ;;
  many0 tcp_udp_packed_node_from_bytes.

Definition tcp_relays_to_bytes (l : list TcpUdpPackedNode) : bytes :=
  gen_le_u16 0x000a ++ SECTION_MAGIC ++ mbind tcp_udp_packed_node_to_bytes l.

(** [PathNodes::from_bytes] / [to_bytes] *)
Definition path_nodes_from_bytes : Parser (list TcpUdpPackedNode) :=
  _t <-- ptag [0x0b; 0x00]%Z ;;
  _m <-- ptag SECTION_MAGIC ;;
  many0 tcp_udp_packed_node_from_bytes.

Definition path_nodes_to_bytes (l : list TcpUdpPackedNode) : bytes :=
  gen_le_u16 0x000b ++ SECTION_MAGIC ++ mbind tcp_udp_packed_node_to_bytes l.

(** [Section::from_bytes]: [alt!] over the nine variants in order. *)
Definition section_from_bytes : Parser Section :=
  palt (pmap nospam_keys_from_bytes SNospamKeys)
  (palt (pmap dht_state_from_bytes SDhtState)
  (palt (pmap friends_from_bytes SFriends)
  (palt (pmap name_from_bytes SName)
  (palt (pmap status_msg_from_bytes SStatusMsg)
  (palt (pmap user_status_from_bytes SUserStatus)
  (palt (pmap tcp_relays_from_bytes STcpRelays)
  (palt (pmap path_nodes_from_bytes SPathNodes)
        (pmap eof_from_bytes (fun _ => SEof))))))))).

(** The [u32] length prefix [Section::to_bytes] writes. *)
Definition section_length (s : Section) : Z :=
  match s with
  | SNospamKeys _ => Z.of_nat NOSPAMKEYSBYTES
  | SDhtState nodes => (12 + sum_sizes packed_node_to_bytes nodes)%Z
  | SFriends l => sum_sizes friend_state_to_bytes l
  | SName p => Z.of_nat (length (name_bytes p))
  | SStatusMsg p => Z.of_nat (length (status_msg_bytes p))
  | SUserStatus _ => Z.of_nat USER_STATUS_LEN
  | STcpRelays l => sum_sizes tcp_udp_packed_node_to_bytes l
  | SPathNodes l => sum_sizes tcp_udp_packed_node_to_bytes l
  | SEof => 0%Z
  end.

(** The bytes of the variant's own [to_bytes] (tag, magic, payload). *)
Definition section_body (s : Section) : bytes :=
  match s with
  | SNospamKeys p => nospam_keys_to_bytes p
  | SDhtState nodes => dht_state_to_bytes nodes
  | SFriends l => friends_to_bytes l
  | SName p => name_to_bytes p
  | SStatusMsg p => status_msg_to_bytes p
  | SUserStatus u => user_status_to_bytes u
  | STcpRelays l => tcp_relays_to_bytes l
  | SPathNodes l => path_nodes_to_bytes l
  | SEof => eof_to_bytes
  end.

(** [Section::to_bytes]: [gen_le_u32!(length)] then the variant's bytes. *)
Definition section_to_bytes (s : Section) : bytes :=
  gen_le_u32 (section_length s) ++ section_body s.

(** [STATE_MAGIC] *)
Definition STATE_MAGIC : bytes := [0x1f; 0x1b; 0xed; 0x15]%Z.

(** One framed section of [State::from_bytes]:
    [flat_map!(length_data!(map!(le_u32, |len| len + 4)), Section::from_bytes)]
    (the [u32] overflow of [len + 4] for [len > 2^32 - 5] is not modelled). *)
Definition framed_section : Parser Section :=
  flat_map (length_data (pmap le_u32 (fun len => len + 4)%Z)) section_from_bytes.

(** [State::from_bytes] / [to_bytes] *)
Definition state_from_bytes : Parser State :=
  _z <-- ptag [0; 0; 0; 0]%Z ;;
  _m <-- ptag STATE_MAGIC ;;
  secs <-- many0 framed_section ;;
  pvalue (mkState secs).

Definition state_to_bytes (v : State) : bytes :=
  [0; 0; 0; 0]%Z ++ STATE_MAGIC ++ mbind section_to_bytes (sections v).

(** *** Representable values *)

(** Values the encoders write without truncation: fixed-size byte fields
    of their size, ports in [u16], [last_seen] in [u64], messages within
    their buffers. *)
Definition wf_ip (a : IpAddr) : Prop :=
  match a with V4 o => length o = 4 | V6 o => length o = 16 end.

Definition wf_old_ip_port (v : OldIpPort) : Prop :=
  wf_ip (ip_addr v) /\ (0 <= port v < 65536)%Z.

Definition wf_tcp_udp_packed_node (v : TcpUdpPackedNode) : Prop :=
  wf_old_ip_port (ip_port v) /\ length (tn_pk v) = PUBLICKEYBYTES.

Definition wf_packed_node (v : PackedNode) : Prop :=
  wf_ip (pn_ip v) /\ (0 <= pn_port v < 65536)%Z /\ length (pn_pk v) = PUBLICKEYBYTES.

Definition wf_nospam_keys (v : NospamKeys) : Prop :=
  length (nospam v) = NOSPAMBYTES /\ length (nk_pk v) = PUBLICKEYBYTES /\
  length (sk v) = SECRETKEYBYTES.

Definition wf_friend_state (v : FriendState) : Prop :=
  length (fs_pk v) = PUBLICKEYBYTES /\
  length (fr_msg v) <= REQUEST_MSG_LEN /\
  length (name_bytes (fs_name v)) <= NAME_LEN /\
  length (status_msg_bytes (fs_status_msg v)) <= STATUS_MSG_LEN /\
  length (fs_nospam v) = NOSPAMBYTES /\
  (0 <= last_seen v < 2 ^ 64)%Z.

(** A section whose fields are representable and whose framed length
    [len + 4] fits the [u32] the parser computes it in. *)
Definition wf_section (s : Section) : Prop :=
  (Z.of_nat (length (section_body s)) < 2 ^ 32)%Z /\
  match s with
  | SNospamKeys p => wf_nospam_keys p
  | SDhtState nodes => Forall wf_packed_node nodes
  | SFriends l => Forall wf_friend_state l
  | STcpRelays l | SPathNodes l => Forall wf_tcp_udp_packed_node l
  | _ => True
  end.

End OldFormat.

(** * Proofs *)

(** ** The link table *)
Module LinksFacts.
Import Links.

Lemma position_none_some l i :
  position_none l = Some i ->
  l !! i = Some None /\ forall j, j < i -> exists x, l !! j = Some (Some x).
Proof.
  revert i; induction l as [|[x|] l IH]; intros i H; simpl in H.
  - discriminate.
  - destruct (position_none l) as [n|] eqn:E; simpl in H; [|discriminate].
    injection H as <-. destruct (IH n eq_refl) as [H1 H2].
    split; [exact H1|]. intros [|j] Hj; simpl; [eauto|]. apply H2; lia.
  - injection H as <-. split; [done|]. intros; lia.
Qed.

Lemma position_none_none l :
  position_none l = None -> forall i o, l !! i = Some o -> exists x, o = Some x.
Proof.
  induction l as [|[x|] l IH]; intros H i o Hi; simpl in H.
  - done.
  - destruct (position_none l) eqn:E; simpl in H; [discriminate|].
    destruct i; simpl in Hi; [injection Hi as <-; eauto | eauto].
  - discriminate.
Qed.

Lemma as_u8_small n : n < 256 -> as_u8 n = n.
Proof. intros. unfold as_u8. apply Nat.mod_small. lia. Qed.

Lemma upgrade_id i to t : upgrade i to t = t.
Proof. unfold upgrade. repeat case_match; done. Qed.

Lemma downgrade_id i t : downgrade i t = t.
Proof. unfold downgrade. repeat case_match; done. Qed.

Lemma inv_new : inv new.
Proof.
  split; [apply length_replicate|].
  intros pk i. simpl. rewrite lookup_empty. split; [discriminate|].
  intros (l & Hl & _). apply lookup_replicate in Hl as [? _]. discriminate.
Qed.

Lemma inv_lookup_none t pk : inv t -> (forall i, ~ occupies t pk i) -> pk_to_id t !! pk = None.
Proof.
  intros [_ Hinv] Hno. destruct (pk_to_id t !! pk) as [i|] eqn:E; [|done].
  exfalso. apply (Hno i), Hinv, E.
Qed.

Lemma inv_insert t pk : inv t -> inv (insert pk t).1.
Proof.
  intros [Hlen Hinv]. unfold insert.
  destruct (pk_to_id t !! pk) as [i|] eqn:Hpk; [by split|].
  destruct (position_none (links t)) as [i|] eqn:Hpos; [|by split].
  destruct (position_none_some _ _ Hpos) as [Hi _].
  pose proof (lookup_lt_Some _ _ _ Hi) as Hlt.
  rewrite as_u8_small by (unfold MAX_LINKS_N in *; lia).
  split; simpl; [by rewrite length_insert|].
  intros pk' j. unfold occupies; simpl.
  destruct (decide (pk = pk')) as [<-|Hne].
  - rewrite lookup_insert_eq. split.
    + intros [= <-]. rewrite list_lookup_insert_eq by done.
      eexists; split; reflexivity.
    + intros (l & Hl & Hlpk).
      destruct (decide (i = j)) as [<-|Hij]; [done|].
      rewrite list_lookup_insert_ne in Hl by done.
      exfalso. assert (pk_to_id t !! pk = Some j) as Hj
        by (apply (proj2 (Hinv _ _)); exists l; done).
      congruence.
  - rewrite lookup_insert_ne by done. split.
    + intros Hj. apply Hinv in Hj as (l & Hl & Hlpk).
      destruct (decide (i = j)) as [<-|Hij]; [congruence|].
      rewrite list_lookup_insert_ne by done. eauto.
    + intros (l & Hl & Hlpk).
      destruct (decide (i = j)) as [<-|Hij].
      * rewrite list_lookup_insert_eq in Hl by done.
        injection Hl as <-. simpl in Hlpk. congruence.
      * rewrite list_lookup_insert_ne in Hl by done.
        apply (proj2 (Hinv _ _)). exists l; done.
Qed.

Lemma inv_take t i : inv t -> inv (take i t).1.
Proof.
  intros [Hlen Hinv]. unfold take.
  destruct (decide (i < MAX_LINKS_N)) as [Hlt|]; [|by split].
  destruct (links t !! i) as [[link|]|] eqn:Hi; [|by split|by split].
  assert (pk_to_id t !! link_pk link = Some i) as Hli
    by (apply (proj2 (Hinv _ _)); exists link; done).
  pose proof (lookup_lt_Some _ _ _ Hi) as Hlt'.
  split; simpl; [by rewrite length_insert|].
  intros pk' j. unfold occupies; simpl.
  destruct (decide (link_pk link = pk')) as [<-|Hne].
  - rewrite lookup_delete_eq. split; [discriminate|].
    intros (l & Hl & Hlpk).
    destruct (decide (i = j)) as [<-|Hij].
    + rewrite list_lookup_insert_eq in Hl by done. discriminate.
    + rewrite list_lookup_insert_ne in Hl by done.
      assert (pk_to_id t !! link_pk link = Some j) as Hj
        by (apply (proj2 (Hinv _ _)); exists l; done).
      congruence.
  - rewrite lookup_delete_ne by done. split.
    + intros Hj. apply Hinv in Hj as (l & Hl & Hlpk).
      destruct (decide (i = j)) as [<-|Hij]; [congruence|].
      rewrite list_lookup_insert_ne by done. eauto.
    + intros (l & Hl & Hlpk).
      destruct (decide (i = j)) as [<-|Hij].
      * rewrite list_lookup_insert_eq in Hl by done. discriminate.
      * rewrite list_lookup_insert_ne in Hl by done.
        apply (proj2 (Hinv _ _)). exists l; done.
Qed.

Lemma reachable_inv t : reachable t -> inv t.
Proof.
  induction 1.
  - apply inv_new.
  - by apply inv_insert.
  - by apply inv_take.
  - by rewrite upgrade_id.
  - by rewrite downgrade_id.
Qed.

(** C2: in every table reachable from [Links::new] by [insert], [take],
    [upgrade] and [downgrade], for every key [pk] and index [i],
    [pk_to_id[pk] = i] holds exactly when [links[i] = Some link] with
    [link.pk = pk]. *)
Theorem link_table_index_agrees (t : Links) :
  reachable t ->
  forall pk i, pk_to_id t !! pk = Some i <->
               exists l, links t !! i = Some (Some l) /\ link_pk l = pk.
Proof. intros H. apply (reachable_inv t H). Qed.

Lemma link_table_index_agrees_witness :
  reachable (take 0 (insert 9%N (insert 5%N new).1).1).1 /\
  (pk_to_id (take 0 (insert 9%N (insert 5%N new).1).1).1 !! 9%N = Some 1 <->
   exists l, links (take 0 (insert 9%N (insert 5%N new).1).1).1 !! 1 = Some (Some l)
             /\ link_pk l = 9%N).
Proof.
  assert (reachable (take 0 (insert 9%N (insert 5%N new).1).1).1) as R
    by (apply reach_take, reach_insert, reach_insert, reach_new).
  split; [exact R|]. exact (link_table_index_agrees _ R 9%N 1).
Defined.

Lemma position_none_prefix (ls : list Link) (n : nat) :
  position_none (map Some ls ++ replicate (S n) None) = Some (length ls).
Proof. induction ls as [|x ls IH]; [done|]. cbn [map app position_none]. by rewrite IH. Qed.

Lemma insert_prefix_slot (ls : list Link) (n : nat) (y : Link) :
  <[length ls := Some y]> (map Some ls ++ replicate (S n) None)
  = map Some (ls ++ [y]) ++ replicate n None.
Proof.
  rewrite map_app, <- app_assoc.
  pose proof (insert_app_r (map Some ls) (replicate (S n) None) 0 (Some y)) as H.
  rewrite length_map, Nat.add_0_r in H. rewrite H. reflexivity.
Qed.

(** Inserting fresh distinct keys into a table whose occupied slots form a
    prefix returns the next slots in order. *)
Lemma insert_all_prefix (ks : list PublicKey) (ls : list Link) (m : gmap PublicKey nat) :
  NoDup ks ->
  (forall k, k ∈ ks -> m !! k = None) ->
  length ls + length ks <= MAX_LINKS_N ->
  (insert_all ks (mkLinks (map Some ls ++ replicate (MAX_LINKS_N - length ls) None) m)).2
  = map Some (seq (length ls) (length ks)).
Proof.
  revert ls m. induction ks as [|k ks IH]; intros ls m Hnd Hfresh Hlen; [done|].
  cbn [insert_all]. unfold insert at 1. cbn [pk_to_id links].
  rewrite (Hfresh k) by set_solver.
  assert (MAX_LINKS_N - length ls = S (MAX_LINKS_N - length ls - 1)) as E
    by (simpl in Hlen; unfold MAX_LINKS_N in *; lia).
  rewrite E, position_none_prefix, insert_prefix_slot.
  rewrite as_u8_small by (simpl in Hlen; unfold MAX_LINKS_N in *; lia).
  apply NoDup_cons in Hnd as [Hk Hnd].
  assert (MAX_LINKS_N - length ls - 1 = MAX_LINKS_N - length (ls ++ [link_new k])) as E2
    by (rewrite length_app; simpl; lia).
  rewrite E2.
  destruct (insert_all ks _) as [t2 rs] eqn:Hrs.
  specialize (IH (ls ++ [link_new k]) (<[k := length ls]> m) Hnd).
  rewrite Hrs in IH. simpl in IH. simpl. f_equal.
  rewrite IH.
  - rewrite length_app. simpl. by rewrite Nat.add_comm.
  - intros k' Hk'. rewrite lookup_insert_ne by (intros ->; contradiction).
    apply Hfresh. set_solver.
  - rewrite length_app. simpl in *. lia.
Qed.

(** C6: [Links::insert(pk)] returns the slot [pk] already occupies without
    changing the table; otherwise it fills the lowest-index empty slot, and
    it answers [None] exactly when all 240 slots are occupied; inserting
    [n <= 240] distinct keys into [Links::new] returns [0, 1, ..., n-1]. *)
Theorem insert_idempotent_lowest_slot (t : Links) (pk : PublicKey) :
  reachable t ->
  (forall i, occupies t pk i -> insert pk t = (t, Some i)) /\
  ((forall i, ~ occupies t pk i) ->
     ((insert pk t).2 = None <-> all_occupied t) /\
     (forall i, (insert pk t).2 = Some i ->
        links t !! i = Some None /\
        (forall j, j < i -> exists l, links t !! j = Some (Some l)) /\
        links (insert pk t).1 !! i = Some (Some (link_new pk)) /\
        (forall j, j <> i -> links (insert pk t).1 !! j = links t !! j))) /\
  (forall ks : list PublicKey, NoDup ks -> length ks <= MAX_LINKS_N ->
     (insert_all ks new).2 = map Some (seq 0 (length ks))).
Proof.
  intros Hr. destruct (reachable_inv t Hr) as [Hlen Hinv].
  split; [|split].
  - intros i Hocc. apply Hinv in Hocc. unfold insert. by rewrite Hocc.
  - intros Hno. assert (pk_to_id t !! pk = None) as Hnone
      by (apply inv_lookup_none; [split|]; done).
    unfold insert. rewrite Hnone.
    destruct (position_none (links t)) as [i|] eqn:Hpos.
    + destruct (position_none_some _ _ Hpos) as [Hi Hbelow].
      pose proof (lookup_lt_Some _ _ _ Hi) as Hlt.
      rewrite as_u8_small by (unfold MAX_LINKS_N in *; lia).
      split.
      * split; [discriminate|]. intros Hall.
        destruct (Hall i) as [l Hl]; [lia|]. congruence.
      * intros i' [= <-]. simpl. split; [done|]. split; [done|]. split.
        -- by apply list_lookup_insert_eq.
        -- intros j Hj. by apply list_lookup_insert_ne.
    + split; [|discriminate]. split; [|done]. intros _ i Hi.
      destruct (lookup_lt_is_Some_2 (links t) i) as [o Ho]; [lia|].
      destruct (position_none_none _ Hpos _ _ Ho) as [x ->]. eauto.
  - intros ks Hnd Hks.
    pose proof (insert_all_prefix ks [] ∅ Hnd) as H. simpl in H.
    apply H; [|done]. intros k _. apply lookup_empty.
Qed.

Lemma insert_idempotent_lowest_slot_witness :
  reachable (insert 5%N new).1 /\
  ((forall i, occupies (insert 5%N new).1 5%N i ->
      insert 5%N (insert 5%N new).1 = ((insert 5%N new).1, Some i)) /\
   ((forall i, ~ occupies (insert 5%N new).1 5%N i) ->
      ((insert 5%N (insert 5%N new).1).2 = None <-> all_occupied (insert 5%N new).1) /\
      (forall i, (insert 5%N (insert 5%N new).1).2 = Some i ->
         links (insert 5%N new).1 !! i = Some None /\
         (forall j, j < i -> exists l, links (insert 5%N new).1 !! j = Some (Some l)) /\
         links (insert 5%N (insert 5%N new).1).1 !! i = Some (Some (link_new 5%N)) /\
         (forall j, j <> i -> links (insert 5%N (insert 5%N new).1).1 !! j
                              = links (insert 5%N new).1 !! j))) /\
   (forall ks : list PublicKey, NoDup ks -> length ks <= MAX_LINKS_N ->
      (insert_all ks new).2 = map Some (seq 0 (length ks)))).
Proof.
  assert (reachable (insert 5%N new).1) as R by (apply reach_insert, reach_new).
  split; [exact R|]. exact (insert_idempotent_lowest_slot _ 5%N R).
Defined.

End LinksFacts.

Module RelayFacts.
Import Links LinksFacts Relay.

Lemma set_state_same s : set_state s (state s) = s.
Proof. by destruct s. Qed.

(** [insert] of a key with no index entry: the table is full and unchanged,
    or the key goes to the lowest empty slot. *)
Lemma insert_absent t pk :
  inv t -> pk_to_id t !! pk = None ->
  (all_occupied t /\ insert pk t = (t, None)) \/
  (~ all_occupied t /\ exists i, i < MAX_LINKS_N /\ links t !! i = Some None /\
     (forall j, j < i -> exists l, links t !! j = Some (Some l)) /\
     insert pk t = (mkLinks (<[i := Some (link_new pk)]> (links t))
                            (<[pk := i]> (pk_to_id t)), Some i)).
Proof.
  intros [Hlen Hinv] Hnone. unfold insert. rewrite Hnone.
  destruct (position_none (links t)) as [i|] eqn:Hpos.
  - destruct (position_none_some _ _ Hpos) as [Hi Hbelow].
    pose proof (lookup_lt_Some _ _ _ Hi) as Hlt.
    rewrite as_u8_small by (unfold MAX_LINKS_N in *; lia).
    right. split.
    + intros Hall. destruct (Hall i) as [l Hl]; [lia|]. congruence.
    + exists i. repeat split; auto. lia.
  - left. split; [|done]. intros i Hi.
    destruct (lookup_lt_is_Some_2 (links t) i) as [o Ho]; [lia|].
    destruct (position_none_none _ Hpos _ _ Ho) as [x ->]. eauto.
Qed.

(** C1 (code_bug): [Links::upgrade(i, to)] never changes the status stored
    in slot [i]; and after the two-sided handshake in which key 1 asks for
    key 2 and then key 2 asks for key 1, both links are still [Registered]
    although both [ConnectNotification]s were sent. *)
Theorem upgrade_keeps_registered :
  (forall t i to, status_at (upgrade i to t) i = status_at t i) /\
  (let s0 := mkServer (server_insert (client_new 2%N (V4 2) 2 0%Z)
                         (server_insert (client_new 1%N (V4 1) 1 0%Z) empty_state)) false in
   let s1 := (handle_packet 0%Z 1%N (RouteRequest 2%N) s0).1 in
   let r2 := handle_packet 0%Z 2%N (RouteRequest 1%N) s1 in
   r2.2 = FutSends [SendTo 2%N (RouteResponse 1%N 16) Strict;
                    SendTo 2%N (ConnectNotification 16) IgnoreError;
                    SendTo 1%N (ConnectNotification 16) IgnoreError] /\
   (connected_clients (state r2.1) !! 1%N ≫= fun c => status_at (links_of c) 0)
     = Some Registered /\
   (connected_clients (state r2.1) !! 2%N ≫= fun c => status_at (links_of c) 0)
     = Some Registered).
Proof.
  split.
  - intros t i to. by rewrite upgrade_id.
  - vm_compute. split; [reflexivity|split; reflexivity].
Qed.

(** C10: with an onion sink configured, an [OnionRequest] from a key that
    is not connected is answered with an error future; nothing is forwarded
    and the server is unchanged. *)
Theorem onion_request_unknown_sender_error (now : Instant) (key : PublicKey)
    (req : OnionRequest) (s : Server) :
  onion_sink s = true ->
  connected_clients (state s) !! key = None ->
  handle_packet now key (OnionRequestP req) s = (s, FutErr "PongResponse: no such PK").
Proof.
  intros Hsink Hkey. cbn [handle_packet]. unfold handle_onion_request.
  by rewrite Hsink, Hkey.
Qed.

Lemma onion_request_unknown_sender_error_witness :
  onion_sink (mkServer empty_state true) = true /\
  connected_clients (state (mkServer empty_state true)) !! 3%N = None /\
  handle_packet 0%Z 3%N (OnionRequestP (mkOnionRequest [] [] 4%N [])) (mkServer empty_state true)
  = (mkServer empty_state true, FutErr "PongResponse: no such PK").
Proof.
  split; [reflexivity|]. split; [reflexivity|].
  apply onion_request_unknown_sender_error; reflexivity.
Defined.

(** C7: a [RouteRequest{peer}] from a connected sender whose link table is
    reachable is answered first with [RouteResponse{peer, 0}] when [peer] is
    the sender itself or the table is full, and with
    [RouteResponse{peer, s+16}] when [peer] already sits in slot [s] or a
    fresh link to it is put in slot [s] (the lowest empty one); a sender
    that is not connected gets an error future. *)
Theorem route_request_reply (now : Instant) (s : Server) (peer : PublicKey) :
  (forall (key : PublicKey) (a : Client),
    connected_clients (state s) !! key = Some a ->
    reachable (links_of a) ->
    (key = peer ->
       (handle_packet now key (RouteRequest peer) s).2
       = FutSends [SendTo key (RouteResponse key 0) Strict]) /\
    (key <> peer -> forall i, occupies (links_of a) peer i ->
       (handle_packet now key (RouteRequest peer) s).2
       = FutSends [SendTo key (RouteResponse peer (i + 16)) Strict]) /\
    (key <> peer -> (forall i, ~ occupies (links_of a) peer i) -> all_occupied (links_of a) ->
       (handle_packet now key (RouteRequest peer) s).2
       = FutSends [SendTo key (RouteResponse peer 0) Strict]) /\
    (key <> peer -> (forall i, ~ occupies (links_of a) peer i) -> ~ all_occupied (links_of a) ->
       exists i rest a',
         links (links_of a) !! i = Some None /\
         (forall j, j < i -> exists l, links (links_of a) !! j = Some (Some l)) /\
         connected_clients (state (handle_packet now key (RouteRequest peer) s).1) !! key
           = Some a' /\
         occupies (links_of a') peer i /\
         (handle_packet now key (RouteRequest peer) s).2
         = FutSends (SendTo key (RouteResponse peer (i + 16)) Strict :: rest))) /\
  (forall key', connected_clients (state s) !! key' = None ->
     handle_packet now key' (RouteRequest peer) s = (s, FutErr "RouteRequest: no such PK")).
Proof.
  split; [|intros key' Hk; cbn [handle_packet]; unfold handle_route_request;
           rewrite Hk; simpl; by rewrite set_state_same].
  intros key a Ha Hr. pose proof (reachable_inv _ Hr) as Hinv.
  cbn [handle_packet]. unfold handle_route_request.
  split; [|split; [|split]].
  - intros <-. rewrite Ha, decide_True by done. reflexivity.
  - intros Hne i Hocc. rewrite Ha, decide_False by done.
    unfold get_connection_id, id_by_pk.
    rewrite (proj2 (proj2 Hinv peer i) Hocc). reflexivity.
  - intros Hne Hno Hall. rewrite Ha, decide_False by done.
    pose proof (inv_lookup_none _ _ Hinv Hno) as Hnone.
    unfold get_connection_id, id_by_pk. rewrite Hnone. simpl.
    unfold insert_connection_id.
    destruct (insert_absent _ peer Hinv Hnone) as [[_ ->]|[Hn _]]; [reflexivity|].
    contradiction.
  - intros Hne Hno Hnall. rewrite Ha, decide_False by done.
    pose proof (inv_lookup_none _ _ Hinv Hno) as Hnone.
    assert (get_connection_id a peer = None) as Hg
      by (unfold get_connection_id, id_by_pk; by rewrite Hnone).
    rewrite Hg. unfold insert_connection_id.
    destruct (insert_absent _ peer Hinv Hnone)
      as [[Hall _]|[_ (i & Hlt & Hi & Hbelow & ->)]]; [contradiction|].
    exists i.
    set (a' := set_links a _).
    assert (occupies (links_of a') peer i) as Hocc.
    { exists (link_new peer). split; [|done]. simpl.
      apply list_lookup_insert_eq. by apply lookup_lt_Some in Hi. }
    simpl.
    destruct (<[key:=a']> (connected_clients (state s)) !! peer) as [b|];
      [destruct (get_connection_id b key)|]; simpl; rewrite lookup_insert_eq;
      eexists; exists a'; eauto 10.
Qed.

Lemma route_request_reply_witness :
  connected_clients (state (mkServer (server_insert (client_new 1%N (V4 1) 1 0%Z) empty_state) false))
    !! 1%N = Some (client_new 1%N (V4 1) 1 0%Z) /\
  reachable (links_of (client_new 1%N (V4 1) 1 0%Z)) /\
  (exists rest, (handle_packet 0%Z 1%N (RouteRequest 2%N)
      (mkServer (server_insert (client_new 1%N (V4 1) 1 0%Z) empty_state) false)).2
   = FutSends (SendTo 1%N (RouteResponse 2%N 16) Strict :: rest)) /\
  handle_packet 0%Z 1%N (RouteRequest 2%N) (mkServer empty_state false)
    = (mkServer empty_state false, FutErr "RouteRequest: no such PK").
Proof.
  assert (reachable (links_of (client_new 1%N (V4 1) 1 0%Z))) as R by apply reach_new.
  assert (connected_clients (state (mkServer (server_insert (client_new 1%N (V4 1) 1 0%Z)
            empty_state) false)) !! 1%N = Some (client_new 1%N (V4 1) 1 0%Z)) as H
    by reflexivity.
  split; [exact H|]. split; [exact R|].
  split; [|exact (proj2 (route_request_reply 0%Z (mkServer empty_state false) 2%N) 1%N
                 eq_refl)].
  destruct (proj1 (route_request_reply 0%Z _ 2%N) 1%N _ H R) as (_ & _ & _ & Hfresh).
  destruct (Hfresh ltac:(discriminate)) as (i & rest & a' & Hi & Hbelow & _ & _ & Hf).
  - intros i (l & Hl & Hpk). apply lookup_replicate in Hl as [? _]. discriminate.
  - intros Hall. destruct (Hall 0) as [l Hl]; [vm_compute; lia|]. discriminate.
  - exists rest. rewrite Hf. destruct i as [|i]; [reflexivity|].
    destruct (Hbelow 0) as [l Hl]; [lia|]. discriminate.
Defined.

Lemma lookup_map_list {A B} (f : A -> B) (l : list A) i : map f l !! i = f <$> l !! i.
Proof. revert i; induction l as [|x l IH]; intros [|i]; simpl; auto. Qed.

(** C8, as the code stands (counterexample): a peer that linked the
    departing client, without the departing client linking it back, is not
    notified: key 2 asks for key 1, then key 1 is shut down; key 2 still
    holds key 1 in slot 0 and the shutdown future sends nothing. *)
Lemma shutdown_skips_unlinked_peer :
  let s0 := mkServer (server_insert (client_new 2%N (V4 2) 2 0%Z)
                        (server_insert (client_new 1%N (V4 1) 1 0%Z) empty_state)) false in
  let s1 := (handle_packet 0%Z 2%N (RouteRequest 1%N) s0).1 in
  (connected_clients (state (shutdown_client 1%N s1).1) !! 2%N
     ≫= fun c => id_by_pk 1%N (links_of c)) = Some 0 /\
  (shutdown_client 1%N s1).2 = FutSends [].
Proof. vm_compute. split; reflexivity. Qed.

(** C8 (amended): [DisconnectNotification{w}] replaces the sender's own
    client by one whose table had slot [w-16] taken (nothing else changes;
    wire ids below 16 change nothing); the only packet sent goes to the key
    [q] that slot held, [DisconnectNotification{t+16}] when [q] is connected
    and holds the sender in slot [t], and nothing is sent when the slot was
    empty.  [shutdown_client] deletes exactly the departing client and its
    address; it notifies exactly the peers held in the departing client's
    own slots that are still connected and hold it back (slot [t]: wire id
    [t+16]).  In both cases every other client is left as it was, links
    included. *)
Theorem disconnect_and_shutdown_frame :
  (forall now s key w a,
     connected_clients (state s) !! key = Some a ->
     connected_clients (state (handle_packet now key (DisconnectNotification w) s).1)
       = <[key := set_links a (if decide (16 <= w) then (take (w - 16) (links_of a)).1
                               else links_of a)]> (connected_clients (state s)) /\
     keys_by_addr (state (handle_packet now key (DisconnectNotification w) s).1)
       = keys_by_addr (state s) /\
     (forall q, q <> key ->
        connected_clients (state (handle_packet now key (DisconnectNotification w) s).1) !! q
        = connected_clients (state s) !! q) /\
     (get_link a w = None ->
        (handle_packet now key (DisconnectNotification w) s).2 = FutSends []) /\
     (forall q, get_link a w = Some q ->
        (handle_packet now key (DisconnectNotification w) s).2
        = match connected_clients (state (handle_packet now key (DisconnectNotification w) s).1)
                  !! q ≫= fun b => id_by_pk key (links_of b) with
          | Some t => FutSends [SendTo q (DisconnectNotification (t + 16)) IgnoreError]
          | None => FutSends []
          end)) /\
  (forall s key a,
     connected_clients (state s) !! key = Some a ->
     connected_clients (state (shutdown_client key s).1) = delete key (connected_clients (state s)) /\
     keys_by_addr (state (shutdown_client key s).1)
       = delete (ip_addr a, port a) (keys_by_addr (state s)) /\
     (forall q, q <> key ->
        connected_clients (state (shutdown_client key s).1) !! q
        = connected_clients (state s) !! q) /\
     (exists l, (shutdown_client key s).2 = FutSends l) /\
     (forall x, x ∈ sends_of (shutdown_client key s).2 <->
        exists i l b t,
          links (links_of a) !! i = Some (Some l) /\
          connected_clients (state (shutdown_client key s).1) !! link_pk l = Some b /\
          id_by_pk key (links_of b) = Some t /\
          x = SendTo (link_pk l) (DisconnectNotification (t + 16)) IgnoreError)).
Proof.
  split.
  - intros now s key w a Ha. cbn [handle_packet].
    unfold handle_disconnect_notification. rewrite Ha.
    unfold take_link, get_link.
    destruct (decide (16 <= w)) as [Hw|Hw].
    + unfold take, by_id.
      destruct (decide (w - 16 < MAX_LINKS_N)) as [Hlt|Hlt];
        [destruct (links (links_of a) !! (w - 16)) as [[l|]|]|].
      * simpl.
        destruct (<[key:=_]> (connected_clients (state s)) !! link_pk l) as [b|] eqn:Hb;
          [destruct (get_connection_id b key) as [t|] eqn:Hg|]; simpl;
          (split; [done|split; [done|split; [intros q Hq; by rewrite lookup_insert_ne
                                          |split; [discriminate|]]]]);
          intros q [= <-]; simpl; rewrite Hb; simpl; [| |done];
          unfold get_connection_id in Hg;
          destruct (id_by_pk key (links_of b)); simpl in Hg; unfold fut_ok; congruence.
      * simpl. split; [done|split; [done|split; [|split; [done|intros ? [=]]]]].
        intros q Hq; by rewrite lookup_insert_ne.
      * simpl. split; [done|split; [done|split; [|split; [done|intros ? [=]]]]].
        intros q Hq; by rewrite lookup_insert_ne.
      * simpl. split; [done|split; [done|split; [|split; [done|intros ? [=]]]]].
        intros q Hq; by rewrite lookup_insert_ne.
    + simpl. replace (set_links a (links_of a)) with a by (by destruct a).
      split; [done|split; [done|split; [|split; [done|intros ? [=]]]]].
      intros q Hq; by rewrite lookup_insert_ne.
  - intros s key a Ha. unfold shutdown_client, shutdown_client_inner. rewrite Ha.
    simpl. split; [done|]. split; [done|]. split.
    { intros q Hq. by rewrite lookup_delete_ne. }
    split; [eauto|]. intros x. rewrite list_elem_of_bind. split.
    + intros (slot & Hx & Hslot). unfold iter_links in Hslot.
      apply list_elem_of_lookup in Hslot as [i Hi].
      rewrite lookup_map_list in Hi.
      destruct (links (links_of a) !! i) as [[l|]|] eqn:Hl; simpl in Hi; try discriminate.
      * injection Hi as <-. unfold shutdown_notification in Hx. simpl in Hx.
        destruct (delete key (connected_clients (state s)) !! link_pk l) as [b|] eqn:Hb;
          [|by apply elem_of_nil in Hx].
        unfold get_connection_id in Hx.
        destruct (id_by_pk key (links_of b)) as [t|] eqn:Ht; simpl in Hx;
          [|by apply elem_of_nil in Hx].
        apply list_elem_of_singleton in Hx. eauto 10.
      * injection Hi as <-. by apply elem_of_nil in Hx.
    + intros (i & l & b & t & Hl & Hb & Ht & ->).
      exists (Some (link_pk l)). split.
      * unfold shutdown_notification. cbn [connected_clients] in *. rewrite Hb.
        unfold get_connection_id. rewrite Ht. simpl. by apply list_elem_of_singleton.
      * unfold iter_links. apply list_elem_of_lookup. exists i.
        by rewrite lookup_map_list, Hl.
Qed.

(** [handle_packet] either leaves the server state alone or replaces the
    sender's client by one with the same key and address. *)
Ltac destruct_opt :=
  repeat match goal with
         | |- context [match ?x with Some _ => _ | None => _ end] => destruct x
         end.

Lemma handle_packet_state now key p s :
  state (handle_packet now key p s).1 = state s \/
  exists c c', connected_clients (state s) !! key = Some c /\
    pk c' = pk c /\ ip_addr c' = ip_addr c /\ port c' = port c /\
    state (handle_packet now key p s).1 = put_client (state s) key c'.
Proof.
  destruct p; cbn [handle_packet]; try (left; reflexivity).
  - unfold handle_route_request.
    destruct (connected_clients (state s) !! key) as [c|] eqn:Hc; [|left; reflexivity].
    destruct (decide (key = pk0)); [left; reflexivity|].
    destruct (get_connection_id c pk0); [left; reflexivity|].
    unfold insert_connection_id. destruct (Links.insert pk0 (links_of c)) as [l r].
    right. exists c, (set_links c l).
    destruct r as [bid|]; [|simpl; auto 10].
    destruct_opt; simpl; auto 10.
  - unfold handle_disconnect_notification.
    destruct (connected_clients (state s) !! key) as [c|] eqn:Hc; [|left; reflexivity].
    right. unfold take_link.
    destruct (decide (16 <= connection_id)); [|exists c, c; simpl; auto 10].
    destruct (Links.take (connection_id - 16) (links_of c)) as [lt [lk|]];
      [|exists c, (set_links c lt); simpl; auto 10].
    exists c, (set_links c lt). simpl.
    destruct_opt; simpl; auto 10.
  - unfold handle_pong_response.
    destruct (decide (ping_id0 = 0%Z)); [left; reflexivity|].
    destruct (connected_clients (state s) !! key) as [c|] eqn:Hc; [|left; reflexivity].
    destruct (decide (ping_id0 = ping_id c)); [|left; reflexivity].
    right. exists c, (set_last_pong_resp c now). simpl; auto 10.
Qed.

Lemma addr_index_put_client st key c c' :
  addr_index_agrees st -> connected_clients st !! key = Some c ->
  pk c' = pk c -> ip_addr c' = ip_addr c -> port c' = port c ->
  addr_index_agrees (put_client st key c').
Proof.
  intros [H1 H2] Hc Hpk Hip Hport. destruct (H1 _ _ Hc) as [Hck Hca].
  split; simpl.
  - intros p c0 Hp. destruct (decide (p = key)) as [->|Hne].
    + rewrite lookup_insert_eq in Hp. injection Hp as <-.
      rewrite Hpk, Hip, Hport. auto.
    + rewrite lookup_insert_ne in Hp by done. auto.
  - intros x p Hx. destruct (H2 _ _ Hx) as (c0 & Hc0 & Hx0).
    destruct (decide (p = key)) as [->|Hne].
    + rewrite lookup_insert_eq. exists c'. split; [done|].
      rewrite Hc in Hc0. injection Hc0 as <-. by rewrite Hip, Hport.
    + rewrite lookup_insert_ne by done. eauto.
Qed.

Lemma addr_index_shutdown s key :
  addr_index_agrees (state s) -> addr_index_agrees (state (shutdown_client key s).1).
Proof.
  intros [H1 H2]. unfold shutdown_client, shutdown_client_inner.
  destruct (connected_clients (state s) !! key) as [a|] eqn:Ha; [|by split].
  destruct (H1 _ _ Ha) as [Hak Haa]. unfold addr_index_agrees. cbn [state set_state connected_clients keys_by_addr fst]. split.
  - intros p c Hp. destruct (decide (p = key)) as [->|Hne];
      [by rewrite lookup_delete_eq in Hp|].
    rewrite lookup_delete_ne in Hp by done.
    destruct (H1 _ _ Hp) as [Hcp Hca]. split; [done|].
    rewrite lookup_delete_ne; [done|].
    intros Heq. rewrite <- Heq, Haa in Hca. congruence.
  - intros x p Hx.
    destruct (decide (x = (ip_addr a, port a))) as [->|Hxne];
      [by rewrite lookup_delete_eq in Hx|].
    rewrite lookup_delete_ne in Hx by done.
    destruct (H2 _ _ Hx) as (c & Hc & Hcx).
    destruct (decide (p = key)) as [->|Hne].
    + rewrite Ha in Hc. injection Hc as <-. congruence.
    + rewrite lookup_delete_ne by done. eauto.
Qed.

Lemma addr_index_insert_fresh st c :
  addr_index_agrees st ->
  connected_clients st !! pk c = None ->
  (forall p c', connected_clients st !! p = Some c' -> (ip_addr c', port c') <> (ip_addr c, port c)) ->
  addr_index_agrees (server_insert c st).
Proof.
  intros [H1 H2] Hfresh Haddr. split; simpl.
  - intros p c0 Hp. destruct (decide (p = pk c)) as [->|Hne].
    + rewrite lookup_insert_eq in Hp. injection Hp as <-.
      split; [done|]. by rewrite lookup_insert_eq.
    + rewrite lookup_insert_ne in Hp by done.
      destruct (H1 _ _ Hp) as [Hcp Hca]. split; [done|].
      rewrite lookup_insert_ne; [done|]. intros Heq. by apply (Haddr p c0).
  - intros x p Hx. destruct (decide (x = (ip_addr c, port c))) as [->|Hxne].
    + rewrite lookup_insert_eq in Hx. injection Hx as <-.
      rewrite lookup_insert_eq. eauto.
    + rewrite lookup_insert_ne in Hx by done.
      destruct (H2 _ _ Hx) as (c0 & Hc0 & Hcx).
      rewrite lookup_insert_ne; [eauto|]. intros Heq. subst p. congruence.
Qed.

(** C3, as the code stands (counterexample): inserting key 2 at the address
    of connected key 1 is reachable and leaves key 1 connected while its
    address now maps to key 2. *)
Lemma insert_same_address_breaks_index :
  let s0 := mkServer empty_state false in
  let s1 := set_state s0 (server_insert (client_new 1%N (V4 7) 33445 0%Z) (state s0)) in
  let s2 := set_state s1 (server_insert (client_new 2%N (V4 7) 33445 0%Z) (state s1)) in
  server_reachable s2 /\
  connected_clients (state s2) !! 1%N = Some (client_new 1%N (V4 7) 33445 0%Z) /\
  keys_by_addr (state s2) !! (V4 7, 33445%N) = Some 2%N.
Proof.
  split; [apply sr_insert, sr_insert, sr_new|].
  vm_compute. split; reflexivity.
Qed.

Lemma client_index_insert st c :
  client_index_agrees st ->
  (forall p c', connected_clients st !! p = Some c' -> (ip_addr c', port c') <> (ip_addr c, port c)) ->
  client_index_agrees (server_insert c st).
Proof.
  intros H Hu p c0 Hp. simpl in Hp |- *. destruct (decide (p = pk c)) as [->|Hne].
  - rewrite lookup_insert_eq in Hp. injection Hp as <-. by rewrite lookup_insert_eq.
  - rewrite lookup_insert_ne in Hp by congruence. destruct (H _ _ Hp) as [Hpk Ha].
    split; [done|]. rewrite lookup_insert_ne; [done|].
    intros Heq. apply (Hu p c0 Hp). congruence.
Qed.

Lemma client_index_put_client st key c c' :
  client_index_agrees st -> connected_clients st !! key = Some c ->
  pk c' = pk c -> ip_addr c' = ip_addr c -> port c' = port c ->
  client_index_agrees (put_client st key c').
Proof.
  intros H Hc Hpk Hip Hport p c0 Hp. simpl in Hp |- *.
  destruct (decide (p = key)) as [->|Hne].
  - rewrite lookup_insert_eq in Hp. injection Hp as <-.
    destruct (H _ _ Hc) as [Hck Hca]. rewrite Hpk, Hip, Hport. by split.
  - rewrite lookup_insert_ne in Hp by congruence. by apply H.
Qed.

Lemma client_index_shutdown s key :
  client_index_agrees (state s) -> client_index_agrees (state (shutdown_client key s).1).
Proof.
  intros H. unfold shutdown_client, shutdown_client_inner.
  destruct (connected_clients (state s) !! key) as [a|] eqn:Ha; [|done].
  destruct (H _ _ Ha) as [Hak Haa].
  cbn [state set_state connected_clients keys_by_addr fst]. intros p c Hp.
  simpl in Hp |- *.
  destruct (decide (p = key)) as [->|Hne]; [by rewrite lookup_delete_eq in Hp|].
  rewrite lookup_delete_ne in Hp by congruence. destruct (H _ _ Hp) as [Hck Hca].
  split; [done|]. rewrite lookup_delete_ne; [done|].
  intros Heq. rewrite Heq in Haa. congruence.
Qed.

(** C3 (amended): in every server reached through [handle_packet],
    [shutdown_client] and [insert]s of clients whose [(ip, port)] no
    connected client has (the key may be connected already, as when a
    client reconnects from a new address), every connected client [c] is
    stored under [c.pk] and [keys_by_addr[(c.ip, c.port)] = c.pk];
    [insert(client)] writes both maps in the same step. *)
Theorem unused_address_inserts_keep_index (s : Server) :
  server_reachable_addr_unused s ->
  client_index_agrees (state s) /\
  (forall c, server_insert c (state s)
             = mkState (<[pk c := c]> (connected_clients (state s)))
                       (<[(ip_addr c, port c) := pk c]> (keys_by_addr (state s)))).
Proof.
  intros Hr. split; [|reflexivity]. induction Hr.
  - intros ?? H. simpl in H. by rewrite lookup_empty in H.
  - by apply client_index_insert.
  - destruct (handle_packet_state now key p s) as [->|(c & c' & Hc & Hpk & Hip & Hport & ->)];
      [done|]. by eapply client_index_put_client.
  - by apply client_index_shutdown.
Qed.

(** The witness reconnects key 1 from a second port. *)
Lemma unused_address_inserts_keep_index_witness :
  let s1 := set_state (mkServer empty_state false)
              (server_insert (client_new 1%N (V4 7) 33445 0%Z) empty_state) in
  let s2 := set_state s1 (server_insert (client_new 1%N (V4 7) 33446 5%Z) (state s1)) in
  server_reachable_addr_unused s2 /\
  client_index_agrees (state s2).
Proof.
  intros s1 s2.
  assert (R1 : server_reachable_addr_unused s1).
  { apply (sra_insert (mkServer empty_state false)); [apply sra_new|].
    intros p c' H. simpl in H. by rewrite lookup_empty in H. }
  assert (R2 : server_reachable_addr_unused s2).
  { apply sra_insert; [exact R1|]. intros p c' H. simpl in H.
    destruct (decide (p = 1%N)) as [->|Hne].
    - rewrite lookup_insert_eq in H. injection H as <-. simpl. congruence.
    - rewrite lookup_insert_ne in H by congruence. by rewrite lookup_empty in H. }
  split; [exact R2|]. exact (proj1 (unused_address_inserts_keep_index _ R2)).
Defined.

Lemma gen_ping_id_nonzero draws id draws' :
  gen_ping_id draws = Some (id, draws') -> id <> 0%Z.
Proof.
  induction draws as [|d ds IH]; simpl; [discriminate|].
  destruct (decide (d = 0%Z)); [exact IH|]. by intros [= <- _].
Qed.

Lemma shutdown_inner_clients k st p :
  connected_clients (shutdown_client_inner k st).1 !! p
  = if decide (p = k) then None else connected_clients st !! p.
Proof.
  unfold shutdown_client_inner.
  destruct (connected_clients st !! k) as [a|] eqn:Hk; cbn [fst connected_clients];
    destruct (decide (p = k)) as [->|Hne]; auto.
  - apply lookup_delete_eq.
  - by apply lookup_delete_ne.
Qed.

Lemma shutdown_inner_sends k st x :
  x ∈ sends_of (shutdown_client_inner k st).2 ->
  exists q t, x = SendTo q (DisconnectNotification t) IgnoreError.
Proof.
  unfold shutdown_client_inner.
  destruct (connected_clients st !! k); simpl; [|by intros ?%elem_of_nil].
  intros (slot & Hx & _)%list_elem_of_bind. unfold shutdown_notification in Hx.
  repeat case_match; try by apply elem_of_nil in Hx.
  apply list_elem_of_singleton in Hx. eauto.
Qed.

Lemma shutdown_all_spec ks st :
  (forall p, connected_clients (shutdown_all ks st).1 !! p
             = if decide (p ∈ ks) then None else connected_clients st !! p) /\
  (forall x, x ∈ (shutdown_all ks st).2 ->
     exists q t, x = SendTo q (DisconnectNotification t) IgnoreError).
Proof.
  revert st. induction ks as [|k ks IH]; intros st; simpl.
  - split; [done|by intros ? ?%elem_of_nil].
  - destruct (shutdown_client_inner k st) as [st1 f] eqn:E1.
    destruct (IH st1) as [IH1 IH2].
    destruct (shutdown_all ks st1) as [st2 l] eqn:E2. simpl in *. split.
    + intros p. rewrite IH1.
      pose proof (shutdown_inner_clients k st p) as H. rewrite E1 in H. simpl in H.
      rewrite H. destruct (decide (p = k)), (decide (p ∈ ks)), (decide (p ∈ k :: ks));
        set_solver.
    + intros x [Hx|Hx]%elem_of_app; [|auto].
      apply (shutdown_inner_sends k st). by rewrite E1.
Qed.

Lemma shutdown_inner_keys_none k st x :
  keys_by_addr st !! x = None -> keys_by_addr (shutdown_client_inner k st).1 !! x = None.
Proof.
  unfold shutdown_client_inner. destruct (connected_clients st !! k) as [a|]; simpl; [|done].
  intros H. destruct (decide (x = (ip_addr a, port a))) as [->|Hne];
    [apply lookup_delete_eq|by rewrite lookup_delete_ne].
Qed.

Lemma shutdown_inner_keys_removed k st c :
  connected_clients st !! k = Some c ->
  keys_by_addr (shutdown_client_inner k st).1 !! (ip_addr c, port c) = None.
Proof. intros Hk. unfold shutdown_client_inner. rewrite Hk. simpl. apply lookup_delete_eq. Qed.

Lemma shutdown_all_keys ks st :
  (forall x, keys_by_addr st !! x = None -> keys_by_addr (shutdown_all ks st).1 !! x = None) /\
  (forall k c, k ∈ ks -> connected_clients st !! k = Some c ->
     keys_by_addr (shutdown_all ks st).1 !! (ip_addr c, port c) = None).
Proof.
  revert st. induction ks as [|k ks IH]; intros st; simpl.
  - split; [done|]. by intros ?? ?%elem_of_nil.
  - destruct (shutdown_client_inner k st) as [st1 f] eqn:E1.
    destruct (IH st1) as [IH1 IH2].
    destruct (shutdown_all ks st1) as [st2 l] eqn:E2. simpl in *. split.
    + intros x Hx. apply IH1. pose proof (shutdown_inner_keys_none k st x Hx) as H.
      rewrite E1 in H. exact H.
    + intros k' c Hin Hc. destruct (decide (k' = k)) as [->|Hne].
      * apply IH1. pose proof (shutdown_inner_keys_removed k st c Hc) as H.
        rewrite E1 in H. exact H.
      * apply elem_of_cons in Hin as [Hin|Hin]; [congruence|].
        apply (IH2 k'); [done|]. pose proof (shutdown_inner_clients k st k') as H.
        rewrite E1 in H. simpl in H. by rewrite H, decide_False.
Qed.

Lemma shutdown_all_notifies ks st k a q b j :
  k ∈ ks -> q ∉ ks ->
  connected_clients st !! k = Some a -> connected_clients st !! q = Some b ->
  Some q ∈ iter_links a -> get_connection_id b k = Some j ->
  SendTo q (DisconnectNotification j) IgnoreError ∈ (shutdown_all ks st).2.
Proof.
  revert st. induction ks as [|k' ks IH]; intros st Hk Hq Ha Hb Hl Hj;
    [by apply elem_of_nil in Hk|].
  simpl. destruct (shutdown_client_inner k' st) as [st1 f] eqn:E1.
  pose proof (shutdown_inner_clients k' st) as Hcl. rewrite E1 in Hcl. simpl in Hcl.
  destruct (shutdown_all ks st1) as [st2 l] eqn:E2. simpl.
  assert (q <> k') by (intros ->; apply Hq; apply elem_of_cons; by left).
  apply elem_of_app. destruct (decide (k' = k)) as [->|Hne].
  - left. unfold shutdown_client_inner in E1. rewrite Ha in E1. injection E1 as <- <-.
    simpl. apply list_elem_of_bind. exists (Some q). split; [|done].
    unfold shutdown_notification. simpl. rewrite lookup_delete_ne by congruence.
    rewrite Hb, Hj. by apply list_elem_of_singleton.
  - right. apply elem_of_cons in Hk as [Hk|Hk]; [congruence|].
    pose proof (IH st1 Hk ltac:(set_solver)) as IH'. rewrite E2 in IH'. apply IH'; [| |done|done].
    + by rewrite Hcl, decide_False.
    + by rewrite Hcl, decide_False.
Qed.

Lemma ping_all_keys now cs st draws st' l :
  ping_all now cs st draws = Some (st', l) -> keys_by_addr st' = keys_by_addr st.
Proof.
  revert st draws st' l. induction cs as [|[k c] cs IH]; intros st draws st' l H; simpl in H.
  - by injection H as <- <-.
  - destruct (is_ping_interval_passed now c).
    + destruct (send_ping_request now k c draws) as [[[c' snd] d']|]; [|discriminate].
      destruct (ping_all now cs (put_client st k c') d') as [[st'' l']|] eqn:Hr;
        [|discriminate].
      injection H as <- <-. by rewrite (IH _ _ _ _ Hr).
    + by apply (IH _ _ _ _ H).
Qed.

Lemma timedout_keys_spec now st p :
  p ∈ timedout_keys now st <->
  exists c, connected_clients st !! p = Some c /\ is_pong_timedout now c = true.
Proof.
  unfold timedout_keys. rewrite list_elem_of_fmap. split.
  - intros ([p' c] & -> & Hf). apply list_elem_of_filter in Hf as [Ht Hm].
    apply elem_of_map_to_list in Hm. eauto.
  - intros (c & Hc & Ht). exists (p, c). split; [done|].
    apply list_elem_of_filter. split; [done|]. by apply elem_of_map_to_list.
Qed.

Lemma ping_all_spec now cs st draws st' l :
  ping_all now cs st draws = Some (st', l) -> NoDup cs.*1 ->
  (forall p c, (p, c) ∈ cs -> is_ping_interval_passed now c = true ->
     exists c', connected_clients st' !! p = Some c' /\ ping_id c' <> 0%Z /\
                last_pinged c' = now /\ SendTo p (PingRequest (ping_id c')) Strict ∈ l) /\
  (forall p, (forall c, (p, c) ∈ cs -> is_ping_interval_passed now c = false) ->
     connected_clients st' !! p = connected_clients st !! p) /\
  (forall x, x ∈ l -> exists p c id, (p, c) ∈ cs /\ is_ping_interval_passed now c = true /\
                                     x = SendTo p (PingRequest id) Strict).
Proof.
  revert st draws st' l. induction cs as [|[k c] cs IH]; intros st draws st' l H Hnd.
  - injection H as <- <-. split; [|split].
    + by intros ?? ?%elem_of_nil.
    + done.
    + by intros ? ?%elem_of_nil.
  - simpl in H, Hnd. apply NoDup_cons in Hnd as [Hk Hnd].
    destruct (is_ping_interval_passed now c) eqn:Hi.
    + unfold send_ping_request in H.
      destruct (gen_ping_id draws) as [[id d']|] eqn:Hg; [|discriminate].
      set (c' := mkClient (pk c) (ip_addr c) (port c) (links_of c) id now (last_pong_resp c)) in H.
      destruct (ping_all now cs (put_client st k c') d') as [[st'' l']|] eqn:Hr;
        [|discriminate].
      injection H as <- <-.
      destruct (IH _ _ _ _ Hr Hnd) as (A & B & C).
      assert (connected_clients st'' !! k = Some c') as Hck.
      { rewrite B; [apply lookup_insert_eq|].
        intros c0 Hc0. exfalso. apply Hk. apply list_elem_of_fmap. by exists (k, c0). }
      split; [|split].
      * intros p c0 [[= -> ->]|Hin]%elem_of_cons Hp.
        -- exists c'. split; [done|]. split; [apply (gen_ping_id_nonzero _ _ _ Hg)|].
           split; [done|]. apply elem_of_cons. by left.
        -- destruct (A _ _ Hin Hp) as (c1 & ? & ? & ? & ?).
           exists c1. repeat split; auto. apply elem_of_cons. by right.
      * intros p Hp. rewrite B.
        -- simpl. rewrite lookup_insert_ne; [done|].
           intros ->. rewrite (Hp c) in Hi; [discriminate|]. apply elem_of_cons. by left.
        -- intros c0 Hc0. apply Hp. apply elem_of_cons. by right.
      * intros x [->|Hx]%elem_of_cons.
        -- exists k, c, id. repeat split; auto. apply elem_of_cons. by left.
        -- destruct (C _ Hx) as (p & c0 & id' & ? & ? & ?).
           exists p, c0, id'. repeat split; auto. apply elem_of_cons. by right.
    + destruct (IH _ _ _ _ H Hnd) as (A & B & C). split; [|split].
      * intros p c0 [[= -> ->]|Hin]%elem_of_cons Hp; [congruence|]. by apply (A p c0).
      * intros p Hp. apply B. intros c0 Hc0. apply Hp. apply elem_of_cons. by right.
      * intros x Hx. destruct (C _ Hx) as (p & c0 & id' & ? & ? & ?).
        exists p, c0, id'. repeat split; auto. apply elem_of_cons. by right.
Qed.

(** C9: one [send_pings] sweep (which returns [None] only when the random
    source for ping ids runs dry) removes every client whose pong timed out
    ([now - last_pong_resp > 40 s]); every other client whose ping interval
    passed stays connected with a fresh nonzero [ping_id] stored and
    [last_pinged = now], and is sent [PingRequest] with that id; the other
    clients are left as they were and no client appears; the address entry
    of every removed client is gone from [keys_by_addr]; the sends are the
    disconnect fan-out of the shutdowns followed by the pings: every
    remaining client that a removed client links and that links it back is
    sent [DisconnectNotification] with its own id for the removed client,
    and every ping goes to a client that was connected, not timed out, and
    due. *)
Theorem send_pings_evicts_then_pings (now : Instant) (draws : list Z) (s s' : Server)
    (sends : list Send) :
  send_pings now draws s = Some (s', sends) ->
  (forall p c, connected_clients (state s) !! p = Some c -> is_pong_timedout now c = true ->
     connected_clients (state s') !! p = None) /\
  (forall p c, connected_clients (state s) !! p = Some c -> is_pong_timedout now c = false ->
     is_ping_interval_passed now c = true ->
     exists c', connected_clients (state s') !! p = Some c' /\ ping_id c' <> 0%Z /\
                last_pinged c' = now /\ SendTo p (PingRequest (ping_id c')) Strict ∈ sends) /\
  (forall p c, connected_clients (state s) !! p = Some c -> is_pong_timedout now c = false ->
     is_ping_interval_passed now c = false -> connected_clients (state s') !! p = Some c) /\
  (forall p, connected_clients (state s) !! p = None -> connected_clients (state s') !! p = None) /\
  (forall p c, connected_clients (state s) !! p = Some c -> is_pong_timedout now c = true ->
     keys_by_addr (state s') !! (ip_addr c, port c) = None) /\
  (exists removed pings, sends = removed ++ pings /\
     (forall x, x ∈ removed -> exists q t, x = SendTo q (DisconnectNotification t) IgnoreError) /\
     (forall x, x ∈ pings -> exists p c id,
        connected_clients (state s) !! p = Some c /\ is_pong_timedout now c = false /\
        is_ping_interval_passed now c = true /\ x = SendTo p (PingRequest id) Strict) /\
     (forall p a q b j,
        connected_clients (state s) !! p = Some a -> is_pong_timedout now a = true ->
        connected_clients (state s) !! q = Some b -> is_pong_timedout now b = false ->
        Some q ∈ iter_links a -> get_connection_id b p = Some j ->
        SendTo q (DisconnectNotification j) IgnoreError ∈ removed)).
Proof.
  unfold send_pings, remove_timedout_clients.
  destruct (shutdown_all_spec (timedout_keys now (state s)) (state s)) as [S1 S2].
  destruct (shutdown_all_keys (timedout_keys now (state s)) (state s)) as [_ T2].
  pose proof (shutdown_all_notifies (timedout_keys now (state s)) (state s)) as T3.
  destruct (shutdown_all (timedout_keys now (state s)) (state s)) as [st1 removed] eqn:E1.
  simpl in S1, S2, T2, T3.
  destruct (ping_all now (map_to_list (connected_clients st1)) st1 draws)
    as [[st2 pings]|] eqn:E2; [|discriminate].
  intros [= <- <-]. simpl.
  destruct (ping_all_spec _ _ _ _ _ _ E2 (NoDup_fst_map_to_list _)) as (A & B & C).
  (* a key of [st1] is a connected key of [s] that did not time out *)
  assert (forall p c, connected_clients st1 !! p = Some c <->
            connected_clients (state s) !! p = Some c /\ is_pong_timedout now c = false) as K.
  { intros p c. rewrite S1. case_decide as Hp.
    - split; [discriminate|]. intros [Hc Ht]. apply timedout_keys_spec in Hp as (c0 & Hc0 & Ht0).
      congruence.
    - split.
      + intros Hc. split; [done|]. destruct (is_pong_timedout now c) eqn:Ht; [|done].
        exfalso. apply Hp, timedout_keys_spec. eauto.
      + by intros [? _]. }
  assert (forall p, connected_clients st1 !! p = None ->
            forall c, (p, c) ∈ map_to_list (connected_clients st1) ->
                      is_ping_interval_passed now c = false) as Knone.
  { intros p Hp c Hc. apply elem_of_map_to_list in Hc. congruence. }
  split; [|split; [|split; [|split; [|split]]]].
  - intros p c Hc Ht. rewrite B; [|apply Knone]; rewrite S1; rewrite decide_True; try done;
      apply timedout_keys_spec; eauto.
  - intros p c Hc Ht Hi.
    destruct (A p c) as (c' & ? & ? & ? & ?); [by apply elem_of_map_to_list, K|done|].
    exists c'. repeat split; auto. apply elem_of_app. by right.
  - intros p c Hc Ht Hi. rewrite B; [by apply K|].
    intros c0 Hc0. apply elem_of_map_to_list, K in Hc0 as [Hc0 _]. congruence.
  - intros p Hp. assert (connected_clients st1 !! p = None) as Hp1.
    { destruct (connected_clients st1 !! p) as [c|] eqn:Hc; [|done].
      apply K in Hc as [Hc _]. congruence. }
    rewrite B; [done|]. by apply Knone.
  - intros p c Hc Ht. simpl. rewrite (ping_all_keys _ _ _ _ _ _ E2).
    apply (T2 p); [apply timedout_keys_spec; eauto|done].
  - exists removed, pings. split; [done|]. split; [done|]. split.
    + intros x Hx. destruct (C _ Hx) as (p & c & id & Hin & Hi & ->).
      apply elem_of_map_to_list, K in Hin as [Hc Ht]. eauto 10.
    + intros p a q b j Ha Hta Hb Htb Hl Hj. apply (T3 p a q b j); try done.
      * apply timedout_keys_spec; eauto.
      * intros Hq. apply timedout_keys_spec in Hq as (c0 & Hc0 & Ht0). congruence.
Qed.

Lemma send_pings_evicts_then_pings_witness :
  let a := set_links (client_new 1%N (V4 1) 1 0%Z) (Links.insert 2%N Links.new).1 in
  let b := mkClient 2%N (V4 2) 2 (Links.insert 1%N Links.new).1 0%Z 0%Z (from_secs 20) in
  let s := mkServer (server_insert b (server_insert a empty_state)) false in
  match send_pings (from_secs 41) [0; 7]%Z s with
  | Some (s', sends) =>
      send_pings (from_secs 41) [0; 7]%Z s = Some (s', sends) /\
      connected_clients (state s') !! 1%N = None /\
      SendTo 2%N (DisconnectNotification 16) IgnoreError ∈ sends
  | None => False
  end.
Proof.
  intros a b s.
  destruct (send_pings (from_secs 41) [0; 7]%Z s) as [[s' sends]|] eqn:E;
    [|vm_compute in E; discriminate].
  destruct (send_pings_evicts_then_pings _ _ _ _ _ E)
    as (H1 & _ & _ & _ & _ & (removed & pings & Hs & _ & _ & F)).
  split; [reflexivity|]. split.
  - apply (H1 1%N a); vm_compute; reflexivity.
  - rewrite Hs. apply elem_of_app. left.
    apply (F 1%N a 2%N b 16); try (vm_compute; reflexivity).
    apply list_elem_of_fmap. exists (Some (link_new 2%N)). split; [reflexivity|].
    vm_compute. repeat constructor.
Defined.

End RelayFacts.

Module CodecFacts.
Import OldFormat.

Lemma pbind_done {A B} (p : Parser A) (f : A -> Parser B) i r v :
  p i = Done r v -> pbind p f i = f v r.
Proof. intros H. unfold pbind. by rewrite H. Qed.

Lemma pbind_error {A B} (p : Parser A) (f : A -> Parser B) i :
  p i = Error -> pbind p f i = Error.
Proof. intros H. unfold pbind. by rewrite H. Qed.

Lemma ptake_app n l r : length l = n -> ptake n (l ++ r) = Done r l.
Proof.
  intros <-. unfold ptake. rewrite decide_True by (rewrite length_app; lia).
  by rewrite drop_app_length, take_app_length.
Qed.

Lemma ptag_app t r : ptag t (t ++ r) = Done r t.
Proof.
  unfold ptag. rewrite length_app.
  rewrite Nat.min_l by lia. rewrite take_app_length, take_ge by lia.
  rewrite decide_True by done. rewrite decide_False by lia.
  by rewrite drop_app_length.
Qed.

Lemma ptag_head_mismatch a b t i : a <> b -> ptag (a :: t) (b :: i) = Error.
Proof.
  intros Hab. unfold ptag. cbn [length].
  destruct (Nat.min (S (length t)) (S (length i))) as [|m] eqn:E; [lia|].
  rewrite decide_False; [done|]. simpl. congruence.
Qed.

Lemma length_le_bytes n x : length (le_bytes n x) = n.
Proof. revert x; induction n; intros x; simpl; auto. Qed.

Lemma le_value_le_bytes n x :
  (0 <= x < 256 ^ Z.of_nat n)%Z -> le_value (le_bytes n x) = x.
Proof.
  revert x; induction n as [|n IH]; intros x Hx; simpl.
  - simpl in Hx. lia.
  - rewrite Nat2Z.inj_succ, Z.pow_succ_r in Hx by lia.
    pose proof (Z.div_mod x 256 ltac:(lia)).
    pose proof (Z.mod_pos_bound x 256 ltac:(lia)).
    rewrite IH; [lia|]. split; [apply Z.div_pos; lia|].
    apply Z.div_lt_upper_bound; lia.
Qed.

Lemma le_take_value n x r :
  (0 <= x < 256 ^ Z.of_nat n)%Z ->
  (b <-- ptake n ;; pvalue (le_value b)) (le_bytes n x ++ r) = Done r x.
Proof.
  intros Hx. rewrite (pbind_done _ _ _ r (le_bytes n x)) by (apply ptake_app, length_le_bytes).
  unfold pvalue. by rewrite le_value_le_bytes.
Qed.

Lemma le_u8_gen x r : (0 <= x < 256)%Z -> le_u8 (gen_le_u8 x ++ r) = Done r x.
Proof. intros. apply le_take_value. simpl. lia. Qed.

Lemma le_u16_gen x r : (0 <= x < 65536)%Z -> le_u16 (gen_le_u16 x ++ r) = Done r x.
Proof. intros. apply le_take_value. simpl. lia. Qed.

Lemma le_u32_gen x r : (0 <= x < 2 ^ 32)%Z -> le_u32 (gen_le_u32 x ++ r) = Done r x.
Proof. intros. apply le_take_value. simpl. lia. Qed.

Lemma le_u64_gen x r : (0 <= x < 2 ^ 64)%Z -> le_u64 (gen_le_u64 x ++ r) = Done r x.
Proof. intros. apply le_take_value. simpl. lia. Qed.

Lemma be_u16_gen x r : (0 <= x < 65536)%Z -> be_u16 (gen_be_u16 x ++ r) = Done r x.
Proof.
  intros Hx. unfold be_u16, gen_be_u16.
  rewrite (pbind_done _ _ _ r (rev (le_bytes 2 x)))
    by (apply ptake_app; by rewrite length_rev, length_le_bytes).
  unfold pvalue. rewrite rev_involutive, le_value_le_bytes; [done|]. simpl. lia.
Qed.

(** [many0] over the concatenated encodings of a list of items. *)
Lemma many0_concat {A} (p : Parser A) (enc : A -> bytes) (l : list A) :
  (forall x r, x ∈ l -> p (enc x ++ r) = Done r x) ->
  (forall x, x ∈ l -> enc x <> []) ->
  many0 p (mbind enc l) = Done [] l.
Proof.
  intros Hp Hne. unfold many0.
  assert (forall f, length (mbind enc l) < f -> many0_fuel f p (mbind enc l) = Done [] l)
    as H; [|apply H; lia].
  induction l as [|x l IH]; intros [|f] Hf; try (simpl in Hf; lia).
  - reflexivity.
  - change (mbind enc (x :: l)) with (enc x ++ mbind enc l) in Hf |- *.
    rewrite length_app in Hf.
    pose proof (Hp x (mbind enc l) ltac:(set_solver)) as Hx.
    set (rest := mbind enc l) in *.
    destruct (enc x) as [|b e] eqn:He; [by destruct (Hne x ltac:(set_solver))|].
    simpl app in Hx |- *. cbn [many0_fuel]. rewrite Hx.
    rewrite decide_False by (intros Heq; apply (f_equal length) in Heq;
                              simpl in Heq; rewrite length_app in Heq; lia).
    rewrite IH; [done| | |simpl in Hf; lia].
    + intros y r Hy. apply Hp. set_solver.
    + intros y Hy. apply Hne. set_solver.
Qed.

Lemma sum_sizes_length {A} (enc : A -> bytes) (l : list A) :
  sum_sizes enc l = Z.of_nat (length (mbind enc l)).
Proof.
  unfold sum_sizes.
  assert (forall a, fold_left (fun acc x => acc + Z.of_nat (length (enc x)))%Z l a
                    = (a + Z.of_nat (length (mbind enc l)))%Z) as H; [|rewrite H; lia].
  induction l as [|x l IH]; intros a; [simpl; lia|].
  cbn [fold_left]. change (mbind enc (x :: l)) with (enc x ++ mbind enc l).
  rewrite IH, length_app. lia.
Qed.

Lemma pmap_done {A B} (p : Parser A) (f : A -> B) i r v :
  p i = Done r v -> pmap p f i = Done r (f v).
Proof. intros H. unfold pmap. by rewrite H. Qed.

Lemma pverify_done {A} (p : Parser A) (f : A -> bool) i r v :
  p i = Done r v -> f v = true -> pverify p f i = Done r v.
Proof. intros H Hf. unfold pverify. by rewrite H, Hf. Qed.

Lemma flat_map_done {A} (p : Parser bytes) (q : Parser A) i r o r' v :
  p i = Done r o -> q o = Done r' v -> flat_map p q i = Done r v.
Proof. intros H Hq. unfold flat_map. by rewrite H, Hq. Qed.

Lemma le_u8_cons x r : le_u8 (x :: r) = Done r x.
Proof.
  unfold le_u8. rewrite (pbind_done _ _ _ r [x]) by (apply (ptake_app 1 [x]); reflexivity).
  unfold pvalue. f_equal. simpl. lia.
Qed.

Lemma length_resize n l : length (resize n l) = n.
Proof. unfold resize. rewrite length_app, length_take, repeat_length. lia. Qed.

Lemma take_resize n l : length l <= n -> take (length l) (resize n l) = l.
Proof. intros Hl. unfold resize. rewrite (take_ge l n) by lia. apply take_app_length. Qed.

(** One step of a [do_parse!] chain whose head parser is done. *)
Ltac pstep :=
  erewrite pbind_done by
    first [ apply ptag_app
          | apply ptake_app; first [eassumption | reflexivity | apply length_le_bytes
                                  | apply length_resize]
          | apply le_u8_cons ];
  cbv beta.

Lemma nospam_keys_roundtrip v r :
  wf_nospam_keys v -> nospam_keys_from_bytes (nospam_keys_to_bytes v ++ r) = Done r v.
Proof.
  intros (H1 & H2 & H3).
  unfold nospam_keys_from_bytes, nospam_keys_to_bytes,
    nospam_from_bytes, public_key_from_bytes, secret_key_from_bytes.
  change (gen_le_u16 0x0001) with [0x01; 0x00]%Z. rewrite <- ?app_assoc.
  do 5 pstep. by destruct v.
Qed.

Lemma name_roundtrip v : name_from_bytes (name_to_bytes v) = Done [] v.
Proof.
  unfold name_from_bytes, name_to_bytes.
  change (gen_le_u16 0x0004) with [0x04; 0x00]%Z. rewrite <- ?app_assoc.
  do 2 pstep. by destruct v.
Qed.

Lemma status_msg_roundtrip v : status_msg_from_bytes (status_msg_to_bytes v) = Done [] v.
Proof.
  unfold status_msg_from_bytes, status_msg_to_bytes.
  change (gen_le_u16 0x0005) with [0x05; 0x00]%Z. rewrite <- ?app_assoc.
  do 2 pstep. by destruct v.
Qed.

Lemma user_working_status_roundtrip u r :
  user_working_status_from_bytes (gen_le_u8 (user_status_u8 u) ++ r) = Done r u.
Proof.
  unfold user_working_status_from_bytes.
  destruct u; (erewrite pbind_done by (apply le_u8_gen; simpl; lia)); reflexivity.
Qed.

Lemma user_status_roundtrip u r :
  user_status_from_bytes (user_status_to_bytes u ++ r) = Done r u.
Proof.
  unfold user_status_from_bytes, user_status_to_bytes.
  change (gen_le_u16 0x0006) with [0x06; 0x00]%Z. rewrite <- ?app_assoc.
  do 2 pstep. apply user_working_status_roundtrip.
Qed.

Lemma eof_roundtrip r : eof_from_bytes (eof_to_bytes ++ r) = Done r tt.
Proof.
  unfold eof_from_bytes, eof_to_bytes.
  change (gen_le_u16 0x00ff) with [0xff; 0x00]%Z. rewrite <- ?app_assoc.
  do 2 pstep. reflexivity.
Qed.

Lemma ipv4_roundtrip o r : length o = 4 -> ipv4_from_bytes (o ++ r) = Done r (V4 o).
Proof. intros Ho. unfold ipv4_from_bytes. by erewrite pmap_done by (by apply ptake_app). Qed.

Lemma ipv6_roundtrip o r : length o = 16 -> ipv6_from_bytes (o ++ r) = Done r (V6 o).
Proof. intros Ho. unfold ipv6_from_bytes. by erewrite pmap_done by (by apply ptake_app). Qed.

Lemma pbind_fail {A B} (f : A -> Parser B) i : pbind (fun _ : bytes => @Error A) f i = Error.
Proof. reflexivity. Qed.

(** The address and port tail shared by the [OldIpPort] and [PackedNode]
    parsers, after the type byte. *)
Ltac ip_port_tail :=
  erewrite pbind_done by (first [apply ipv4_roundtrip | apply ipv6_roundtrip]; assumption);
  cbv beta; erewrite pbind_done by (apply be_u16_gen; lia); cbv beta.

Lemma old_ip_port_roundtrip v r :
  wf_old_ip_port v -> old_ip_port_from_bytes (old_ip_port_to_bytes v ++ r) = Done r v.
Proof.
  destruct v as [proto a port]. intros [Ha Hport]. simpl in Ha, Hport.
  unfold old_ip_port_from_bytes, old_ip_port_to_bytes, palt,
    old_ip_port_from_udp_bytes, old_ip_port_from_tcp_bytes.
  rewrite <- ?app_assoc.
  destruct proto, a as [o|o]; unfold ip_type;
    cbn [is_ipv4 protocol OldFormat.ip_addr OldFormat.port app ip_addr_to_bytes ip_octets];
    (erewrite pbind_done by apply le_u8_cons); try (erewrite pbind_done by apply le_u8_cons);
    cbv beta iota; rewrite ?pbind_fail; cbv iota;
    try (erewrite pbind_done by apply le_u8_cons); cbv beta iota; ip_port_tail; reflexivity.
Qed.

Lemma tcp_udp_packed_node_roundtrip v r :
  wf_tcp_udp_packed_node v ->
  tcp_udp_packed_node_from_bytes (tcp_udp_packed_node_to_bytes v ++ r) = Done r v.
Proof.
  destruct v as [ipp k]. intros [Hipp Hk]. simpl in Hk.
  unfold tcp_udp_packed_node_from_bytes, tcp_udp_packed_node_to_bytes, public_key_from_bytes.
  cbn [ip_port tn_pk]. rewrite <- app_assoc.
  erewrite pbind_done by (by apply old_ip_port_roundtrip). cbv beta.
  pstep. reflexivity.
Qed.

Lemma packed_node_roundtrip v r :
  wf_packed_node v -> packed_node_from_bytes (packed_node_to_bytes v ++ r) = Done r v.
Proof.
  destruct v as [a port k]. intros (Ha & Hport & Hk). simpl in Ha, Hport, Hk.
  unfold packed_node_from_bytes, packed_node_to_bytes, public_key_from_bytes.
  rewrite <- ?app_assoc.
  destruct a as [o|o]; cbn [is_ipv4 pn_ip pn_port pn_pk app ip_addr_to_bytes ip_octets];
    (erewrite pbind_done by apply le_u8_cons); cbv beta iota; ip_port_tail;
    pstep; reflexivity.
Qed.

Lemma dht_state_roundtrip nodes r :
  Forall wf_packed_node nodes ->
  (Z.of_nat (length (mbind packed_node_to_bytes nodes)) < 2 ^ 32)%Z ->
  dht_state_from_bytes (dht_state_to_bytes nodes ++ r) = Done r nodes.
Proof.
  intros Hwf Hlen. rewrite Forall_forall in Hwf.
  unfold dht_state_from_bytes, dht_state_to_bytes.
  change (gen_le_u16 0x0002) with [0x02; 0x00]%Z. rewrite <- ?app_assoc.
  do 2 pstep.
  erewrite pbind_done
    by (apply pverify_done; [apply le_u32_gen; unfold DHT_MAGICAL; lia|reflexivity]).
  cbv beta.
  erewrite pbind_done by (apply le_u32_gen; rewrite sum_sizes_length; lia). cbv beta.
  erewrite pbind_done
    by (apply pverify_done; [apply le_u16_gen; unfold DHT_SECTION_TYPE; lia|reflexivity]).
  cbv beta.
  erewrite pbind_done
    by (apply pverify_done; [apply le_u16_gen; unfold DHT_2ND_MAGICAL; lia|reflexivity]).
  cbv beta.
  erewrite pbind_done; [reflexivity|].
  eapply flat_map_done.
  - apply ptake_app. by rewrite sum_sizes_length, Nat2Z.id.
  - apply many0_concat.
    + intros x r' Hx. apply packed_node_roundtrip. by apply Hwf.
    + intros x _. unfold packed_node_to_bytes. cbn [app]. discriminate.
Qed.

Lemma friend_status_roundtrip s r :
  friend_status_from_bytes (gen_le_u8 (friend_status_u8 s) ++ r) = Done r s.
Proof.
  unfold friend_status_from_bytes.
  destruct s; (erewrite pbind_done by (apply le_u8_gen; simpl; lia)); reflexivity.
Qed.

Lemma friend_state_roundtrip v r :
  wf_friend_state v -> friend_state_from_bytes (friend_state_to_bytes v ++ r) = Done r v.
Proof.
  destruct v as [fst_ k msg [nm] [sm] us ns seen].
  intros (Hk & Hmsg & Hnm & Hsm & Hns & Hseen); cbn in Hk, Hmsg, Hnm, Hsm, Hns, Hseen.
  unfold REQUEST_MSG_LEN, NAME_LEN, STATUS_MSG_LEN in Hmsg, Hnm, Hsm.
  unfold friend_state_from_bytes, friend_state_to_bytes, public_key_from_bytes,
    nospam_from_bytes.
  cbn [friend_status fs_pk fr_msg fs_name fs_status_msg user_status fs_nospam last_seen
       name_bytes status_msg_bytes].
  rewrite <- ?app_assoc.
  erewrite pbind_done by apply friend_status_roundtrip. cbv beta.
  do 3 pstep.
  erewrite pbind_done by (apply be_u16_gen; lia). cbv beta.
  erewrite pbind_done
    by (apply pverify_done; [reflexivity|apply bool_decide_eq_true; unfold REQUEST_MSG_LEN; lia]).
  cbv beta. pstep.
  erewrite pbind_done by (apply be_u16_gen; lia). cbv beta.
  erewrite pbind_done
    by (apply pverify_done; [reflexivity|apply bool_decide_eq_true; unfold NAME_LEN; lia]).
  cbv beta. do 2 pstep.
  erewrite pbind_done by (apply be_u16_gen; lia). cbv beta.
  erewrite pbind_done
    by (apply pverify_done; [reflexivity|apply bool_decide_eq_true; unfold STATUS_MSG_LEN; lia]).
  cbv beta.
  erewrite pbind_done by apply user_working_status_roundtrip. cbv beta.
  rewrite (app_assoc (gen_le_u8 0) (gen_le_u16 0)).
  do 2 pstep.
  erewrite pbind_done by (by apply le_u64_gen). cbv beta.
  unfold pvalue. rewrite !Nat2Z.id, !take_resize by (unfold REQUEST_MSG_LEN, NAME_LEN, STATUS_MSG_LEN; lia).
  reflexivity.
Qed.

Lemma length_friend_state_to_bytes v :
  wf_friend_state v -> length (friend_state_to_bytes v) = FRIENDSTATEBYTES.
Proof.
  intros (Hk & _ & _ & _ & Hns & _). unfold friend_state_to_bytes, gen_be_u16.
  rewrite !length_app, !length_rev, !length_le_bytes, !length_resize, Hk, Hns.
  reflexivity.
Qed.

Lemma friends_roundtrip l :
  Forall wf_friend_state l -> friends_from_bytes (friends_to_bytes l) = Done [] l.
Proof.
  intros Hwf. rewrite Forall_forall in Hwf.
  unfold friends_from_bytes, friends_to_bytes.
  change (gen_le_u16 0x0003) with [0x03; 0x00]%Z. rewrite <- ?app_assoc.
  do 2 pstep. apply many0_concat.
  - intros x r Hx. eapply flat_map_done.
    + apply ptake_app. by apply length_friend_state_to_bytes, Hwf.
    + rewrite <- (app_nil_r (friend_state_to_bytes x)).
      apply friend_state_roundtrip. by apply Hwf.
  - intros x Hx Hnil. apply (f_equal length) in Hnil.
    rewrite length_friend_state_to_bytes in Hnil by (by apply Hwf). discriminate.
Qed.

Lemma tcp_udp_nodes_many0 l :
  Forall wf_tcp_udp_packed_node l ->
  many0 tcp_udp_packed_node_from_bytes (mbind tcp_udp_packed_node_to_bytes l) = Done [] l.
Proof.
  intros Hwf. rewrite Forall_forall in Hwf. apply many0_concat.
  - intros x r Hx. apply tcp_udp_packed_node_roundtrip. by apply Hwf.
  - intros x _. unfold tcp_udp_packed_node_to_bytes, old_ip_port_to_bytes.
    cbn [app]. discriminate.
Qed.

Lemma tcp_relays_roundtrip l :
  Forall wf_tcp_udp_packed_node l -> tcp_relays_from_bytes (tcp_relays_to_bytes l) = Done [] l.
Proof.
  intros Hwf. unfold tcp_relays_from_bytes, tcp_relays_to_bytes.
  change (gen_le_u16 0x000a) with [0x0a; 0x00]%Z. rewrite <- ?app_assoc.
  do 2 pstep. by apply tcp_udp_nodes_many0.
Qed.

Lemma path_nodes_roundtrip l :
  Forall wf_tcp_udp_packed_node l -> path_nodes_from_bytes (path_nodes_to_bytes l) = Done [] l.
Proof.
  intros Hwf. unfold path_nodes_from_bytes, path_nodes_to_bytes.
  change (gen_le_u16 0x000b) with [0x0b; 0x00]%Z. rewrite <- ?app_assoc.
  do 2 pstep. by apply tcp_udp_nodes_many0.
Qed.

Lemma palt_error_l {A} (p q : Parser A) i : p i = Error -> palt p q i = q i.
Proof. intros H. unfold palt. by rewrite H. Qed.

Lemma palt_done {A} (p q : Parser A) i r v : p i = Done r v -> palt p q i = Done r v.
Proof. intros H. unfold palt. by rewrite H. Qed.

Lemma pmap_error {A B} (p : Parser A) (f : A -> B) i : p i = Error -> pmap p f i = Error.
Proof. intros H. unfold pmap. by rewrite H. Qed.

Lemma ptag_head_mismatch' a t i b i' : i = b :: i' -> a <> b -> ptag (a :: t) i = Error.
Proof. intros -> Hab. by apply ptag_head_mismatch. Qed.

(** An [alt!] branch of [Section::from_bytes] whose tag differs. *)
Ltac skip_alt :=
  rewrite palt_error_l by
    (apply pmap_error;
     unfold nospam_keys_from_bytes, dht_state_from_bytes, friends_from_bytes,
       name_from_bytes, status_msg_from_bytes, user_status_from_bytes,
       tcp_relays_from_bytes, path_nodes_from_bytes;
     apply pbind_error; eapply ptag_head_mismatch';
     [reflexivity|intros Hc; vm_compute in Hc; discriminate]).

Lemma section_from_body s :
  wf_section s -> exists r, section_from_bytes (section_body s) = Done r s.
Proof.
  intros [Hlen Hwf]. exists [].
  destruct s; cbn [section_body] in *; unfold section_from_bytes.
  - apply palt_done, pmap_done. rewrite <- (app_nil_r (nospam_keys_to_bytes _)).
    by apply nospam_keys_roundtrip.
  - skip_alt. apply palt_done, pmap_done. rewrite <- (app_nil_r (dht_state_to_bytes _)).
    apply dht_state_roundtrip; [done|].
    unfold dht_state_to_bytes in Hlen. rewrite !length_app in Hlen. lia.
  - do 2 skip_alt. apply palt_done, pmap_done. by apply friends_roundtrip.
  - do 3 skip_alt. apply palt_done, pmap_done. apply name_roundtrip.
  - do 4 skip_alt. apply palt_done, pmap_done. apply status_msg_roundtrip.
  - do 5 skip_alt. apply palt_done, pmap_done.
    rewrite <- (app_nil_r (user_status_to_bytes _)). apply user_status_roundtrip.
  - do 6 skip_alt. apply palt_done, pmap_done. by apply tcp_relays_roundtrip.
  - do 7 skip_alt. apply palt_done, pmap_done. by apply path_nodes_roundtrip.
  - do 8 skip_alt. apply (pmap_done eof_from_bytes (fun _ => SEof) _ [] tt). rewrite <- (app_nil_r eof_to_bytes).
    apply eof_roundtrip.
Qed.

(** The prefix is the body length minus the two tag and two magic bytes. *)
Lemma section_length_body s :
  wf_section s -> (section_length s + 4)%Z = Z.of_nat (length (section_body s)).
Proof.
  intros [_ Hwf]. destruct s; cbn [section_length section_body] in *;
    unfold nospam_keys_to_bytes, dht_state_to_bytes, friends_to_bytes, name_to_bytes,
      status_msg_to_bytes, user_status_to_bytes, tcp_relays_to_bytes, path_nodes_to_bytes,
      eof_to_bytes, gen_le_u8, gen_le_u16, gen_le_u32, SECTION_MAGIC, NOSPAMKEYSBYTES,
      USER_STATUS_LEN;
    rewrite ?length_app, ?length_le_bytes, ?sum_sizes_length; cbn [length].
  1: (destruct Hwf as (H1 & H2 & H3); rewrite H1, H2, H3; reflexivity).
  all: lia.
Qed.

Lemma section_length_nonneg s : (0 <= section_length s)%Z.
Proof. destruct s; cbn [section_length]; rewrite ?sum_sizes_length; lia. Qed.

Lemma section_prefix_read s r :
  wf_section s ->
  pmap le_u32 (fun len => len + 4)%Z (section_to_bytes s ++ r)
    = Done (section_body s ++ r) (section_length s + 4)%Z /\
  length_data (pmap le_u32 (fun len => len + 4)%Z) (section_to_bytes s ++ r)
    = Done r (section_body s).
Proof.
  intros Hwf. pose proof (section_length_body s Hwf) as Hl.
  pose proof (proj1 Hwf) as Hlen. pose proof (section_length_nonneg s).
  assert (Hp : pmap le_u32 (fun len => len + 4)%Z (section_to_bytes s ++ r)
    = Done (section_body s ++ r) (section_length s + 4)%Z).
  { unfold section_to_bytes. rewrite <- app_assoc.
    apply (pmap_done le_u32 (fun len => (len + 4)%Z) _ _ (section_length s)).
    apply le_u32_gen; lia. }
  split; [exact Hp|].
  unfold length_data. rewrite (pbind_done _ _ _ _ _ Hp). cbv beta.
  apply ptake_app. rewrite Hl. symmetry. apply Nat2Z.id.
Qed.

Lemma framed_section_roundtrip s r :
  wf_section s -> framed_section (section_to_bytes s ++ r) = Done r s.
Proof.
  intros Hwf. destruct (section_from_body s Hwf) as [r' Hs].
  unfold framed_section. eapply flat_map_done; [|exact Hs].
  apply (section_prefix_read s r Hwf).
Qed.

Lemma state_roundtrip st :
  Forall wf_section (sections st) -> state_from_bytes (state_to_bytes st) = Done [] st.
Proof.
  intros Hwf. rewrite Forall_forall in Hwf.
  unfold state_from_bytes, state_to_bytes.
  rewrite (pbind_done _ _ _ _ _ (ptag_app _ _)). cbv beta.
  rewrite (pbind_done _ _ _ _ _ (ptag_app _ _)). cbv beta.
  rewrite (pbind_done _ _ _ [] (sections st)); [by destruct st|].
  apply many0_concat.
  - intros x r Hx. by apply framed_section_roundtrip, Hwf.
  - intros x _. unfold section_to_bytes, gen_le_u32. cbn [le_bytes app]. discriminate.
Qed.

(** C4 (counterexample): the length prefix of the [Eof] section is [0],
    although the tag and the magic (4 bytes) follow it; the prefix does not
    count them. *)
Lemma eof_prefix_excludes_tag_magic :
  section_to_bytes SEof = [0; 0; 0; 0; 0xff; 0; 0xce; 0x01]%Z /\
  le_value (take 4 (section_to_bytes SEof)) = 0%Z /\
  length (drop 4 (section_to_bytes SEof)) = 4.
Proof. vm_compute. repeat split. Qed.

(** C4 (amended): for every representable section, the first 4 bytes
    [Section::to_bytes] writes are the little-endian [u32] length of the
    payload alone, i.e. of what follows the 2-byte tag and the 2-byte
    magic; [State::from_bytes] reads that prefix as [payload_length + 4],
    takes exactly the tag, magic and payload, and the variant parser then
    yields the section back. *)
Theorem section_prefix_counts_payload s r :
  wf_section s ->
  take 4 (section_to_bytes s) = gen_le_u32 (section_length s) /\
  drop 4 (section_to_bytes s) = section_body s /\
  drop 2 (take 4 (section_body s)) = SECTION_MAGIC /\
  section_length s = Z.of_nat (length (drop 4 (section_body s))) /\
  pmap le_u32 (fun len => len + 4)%Z (section_to_bytes s ++ r)
    = Done (section_body s ++ r) (section_length s + 4)%Z /\
  length_data (pmap le_u32 (fun len => len + 4)%Z) (section_to_bytes s ++ r)
    = Done r (section_body s) /\
  framed_section (section_to_bytes s ++ r) = Done r s.
Proof.
  intros Hwf. pose proof (section_length_body s Hwf) as Hl.
  pose proof (section_length_nonneg s).
  destruct (section_prefix_read s r Hwf) as [Hp Hd].
  split; [unfold section_to_bytes, gen_le_u32; reflexivity|].
  split; [unfold section_to_bytes, gen_le_u32; reflexivity|].
  split; [destruct s; reflexivity|].
  split; [rewrite length_drop; lia|].
  split; [exact Hp|]. split; [exact Hd|].
  by apply framed_section_roundtrip.
Qed.

Lemma section_prefix_counts_payload_witness :
  wf_section (SUserStatus Away) /\
  section_length (SUserStatus Away) = 1%Z /\
  framed_section (section_to_bytes (SUserStatus Away)) = Done [] (SUserStatus Away).
Proof.
  assert (Hw : wf_section (SUserStatus Away)) by (split; [vm_compute; reflexivity | exact I]).
  destruct (section_prefix_counts_payload (SUserStatus Away) [] Hw)
    as (_ & _ & _ & Hlen & _ & _ & Hf).
  rewrite app_nil_r in Hf.
  split; [exact Hw|]. split; [vm_compute; reflexivity | exact Hf].
Defined.

(** C5: decoding what the encoder wrote gives the value back, exactly
    consuming the input, for each of the nine section variants (whose
    fields are representable: fixed-size fields of their size, ports in
    [u16], [last_seen] in [u64], lengths within [u32]) and for a whole
    [State] whose sections are representable. *)
Theorem codec_roundtrip :
  (forall v, wf_nospam_keys v ->
     nospam_keys_from_bytes (nospam_keys_to_bytes v) = Done [] v) /\
  (forall nodes, Forall wf_packed_node nodes ->
     (Z.of_nat (length (mbind packed_node_to_bytes nodes)) < 2 ^ 32)%Z ->
     dht_state_from_bytes (dht_state_to_bytes nodes) = Done [] nodes) /\
  (forall l, Forall wf_friend_state l -> friends_from_bytes (friends_to_bytes l) = Done [] l) /\
  (forall v, name_from_bytes (name_to_bytes v) = Done [] v) /\
  (forall v, status_msg_from_bytes (status_msg_to_bytes v) = Done [] v) /\
  (forall u, user_status_from_bytes (user_status_to_bytes u) = Done [] u) /\
  (forall l, Forall wf_tcp_udp_packed_node l ->
     tcp_relays_from_bytes (tcp_relays_to_bytes l) = Done [] l) /\
  (forall l, Forall wf_tcp_udp_packed_node l ->
     path_nodes_from_bytes (path_nodes_to_bytes l) = Done [] l) /\
  eof_from_bytes eof_to_bytes = Done [] tt /\
  (forall st, Forall wf_section (sections st) -> state_from_bytes (state_to_bytes st) = Done [] st).
Proof.
  split; [intros v Hv; rewrite <- (app_nil_r (nospam_keys_to_bytes v)); by apply nospam_keys_roundtrip|].
  split; [intros n Hn Hb; rewrite <- (app_nil_r (dht_state_to_bytes n)); by apply dht_state_roundtrip|].
  split; [exact friends_roundtrip|].
  split; [exact name_roundtrip|].
  split; [exact status_msg_roundtrip|].
  split; [intros u; rewrite <- (app_nil_r (user_status_to_bytes u)); apply user_status_roundtrip|].
  split; [exact tcp_relays_roundtrip|].
  split; [exact path_nodes_roundtrip|].
  split; [rewrite <- (app_nil_r eof_to_bytes); apply eof_roundtrip|].
  exact state_roundtrip.
Qed.

Lemma codec_roundtrip_witness :
  let st := mkState
    [SNospamKeys (mkNospamKeys [1; 2; 3; 4]%Z (repeat 5%Z 32) (repeat 6%Z 32));
     STcpRelays [mkTcpUdpPackedNode (mkOldIpPort TCP (V4 [127; 0; 0; 1]%Z) 33445%Z)
                                    (repeat 7%Z 32)];
     SName (mkName [65; 66]%Z);
     SUserStatus Away;
     SEof] in
  Forall wf_section (sections st) /\ state_from_bytes (state_to_bytes st) = Done [] st.
Proof.
  intros st.
  assert (Hw : Forall wf_section (sections st))
    by (unfold st; cbn [sections]; repeat apply List.Forall_cons; try apply List.Forall_nil;
        (split; [vm_compute; reflexivity|]); cbn;
        repeat (first [apply List.Forall_cons | apply List.Forall_nil | split]);
        cbn; lia).
  split; [exact Hw|].
  destruct codec_roundtrip as (_ & _ & _ & _ & _ & _ & _ & _ & _ & Hst).
  exact (Hst st Hw).
Defined.

End CodecFacts.

(** ** Further properties of the link table *)
Module LinksExtra.
Import Links LinksFacts.

(** In every reachable table the slot array has 240 entries, a key sits
    in at most one slot, two keys never share an index, and every index
    of [pk_to_id] is a valid slot. *)
Theorem links_one_slot_per_key (t : Links) :
  reachable t ->
  length (links t) = MAX_LINKS_N /\
  (forall pk i j, occupies t pk i -> occupies t pk j -> i = j) /\
  (forall pk pk' i, id_by_pk pk t = Some i -> id_by_pk pk' t = Some i -> pk = pk') /\
  (forall pk i, id_by_pk pk t = Some i -> i < MAX_LINKS_N).
Proof.
  intros Hr. destruct (reachable_inv t Hr) as [Hlen Hinv].
  split; [done|]. unfold id_by_pk. split; [|split].
  - intros pk i j Hi Hj. apply Hinv in Hi, Hj. congruence.
  - intros pk pk' i Hi Hi'. apply Hinv in Hi as (l & Hl & <-), Hi' as (l' & Hl' & <-).
    congruence.
  - intros pk i Hi. apply Hinv in Hi as (l & Hl & _).
    rewrite <- Hlen. by eapply lookup_lt_Some.
Qed.

Lemma links_one_slot_per_key_witness :
  reachable (insert 7%N (insert 5%N new).1).1 /\
  id_by_pk 7%N (insert 7%N (insert 5%N new).1).1 = Some 1 /\
  (forall pk', id_by_pk pk' (insert 7%N (insert 5%N new).1).1 = Some 1 -> pk' = 7%N).
Proof.
  assert (R : reachable (insert 7%N (insert 5%N new).1).1)
    by (apply reach_insert, reach_insert, reach_new).
  split; [exact R|]. split; [vm_compute; reflexivity|].
  intros pk' H. destruct (links_one_slot_per_key _ R) as (_ & _ & Hu & _).
  exact (Hu pk' 7%N 1 H ltac:(vm_compute; reflexivity)).
Defined.

(** [Links::insert] on a reachable table: when it returns [Some i], [pk]
    is indexed at [i] and slot [i] holds a link to [pk], and every other
    slot and every other key's index are as before; when it returns
    [None], the table is unchanged and every slot is occupied. *)
Theorem insert_then_lookup (t : Links) (pk : PublicKey) :
  reachable t ->
  match insert pk t with
  | (t', Some i) =>
      id_by_pk pk t' = Some i /\
      (exists l, by_id i t' = Some l /\ link_pk l = pk) /\
      (forall j, j <> i -> by_id j t' = by_id j t) /\
      (forall pk', pk' <> pk -> id_by_pk pk' t' = id_by_pk pk' t)
  | (t', None) => t' = t /\ forall i, i < MAX_LINKS_N -> by_id i t <> None
  end.
Proof.
  intros Hr. pose proof (reachable_inv t Hr) as Hi. destruct Hi as [Hlen Hinv].
  destruct (pk_to_id t !! pk) as [i|] eqn:Hpk.
  - assert (insert pk t = (t, Some i)) as -> by (unfold insert; by rewrite Hpk).
    destruct (proj1 (Hinv pk i) Hpk) as (l & Hl & Hlpk).
    pose proof (lookup_lt_Some _ _ _ Hl) as Hlt.
    split; [done|]. split; [|split; done].
    exists l. split; [|done]. unfold by_id.
    rewrite decide_True by lia. by rewrite Hl.
  - destruct (RelayFacts.insert_absent t pk (conj Hlen Hinv) Hpk)
      as [[Hall ->] | [_ (i & Hlt & Hi & _ & ->)]].
    + split; [done|]. intros i Hlt Hb. unfold by_id in Hb.
      rewrite decide_True in Hb by done.
      destruct (Hall i Hlt) as [l Hl]. rewrite Hl in Hb. discriminate.
    + unfold id_by_pk, by_id; simpl. split; [by rewrite lookup_insert_eq|].
      split; [|split].
      * exists (link_new pk). rewrite decide_True by done.
        by rewrite list_lookup_insert_eq by (eapply lookup_lt_Some; eauto).
      * intros j Hj. by rewrite list_lookup_insert_ne by done.
      * intros pk' Hne. by rewrite lookup_insert_ne by done.
Qed.

Lemma insert_then_lookup_witness :
  reachable (insert 5%N new).1 /\
  match insert 7%N (insert 5%N new).1 with
  | (t', Some i) =>
      id_by_pk 7%N t' = Some i /\
      (exists l, by_id i t' = Some l /\ link_pk l = 7%N) /\
      (forall j, j <> i -> by_id j t' = by_id j (insert 5%N new).1) /\
      (forall pk', pk' <> 7%N -> id_by_pk pk' t' = id_by_pk pk' (insert 5%N new).1)
  | (t', None) => t' = (insert 5%N new).1 /\
      forall i, i < MAX_LINKS_N -> by_id i (insert 5%N new).1 <> None
  end.
Proof.
  assert (R : reachable (insert 5%N new).1) by (apply reach_insert, reach_new).
  split; [exact R|]. exact (insert_then_lookup _ 7%N R).
Defined.

(** On a reachable table, [take] of the slot that [insert] just filled
    for a new key gives back the table as it was before the insert. *)
Theorem take_undoes_insert (t t' : Links) (pk : PublicKey) (i : nat) :
  reachable t -> id_by_pk pk t = None -> insert pk t = (t', Some i) ->
  take i t' = (t, Some (link_new pk)).
Proof.
  intros Hr Hnone Hins. unfold id_by_pk in Hnone.
  destruct (RelayFacts.insert_absent t pk (reachable_inv t Hr) Hnone)
    as [[_ Heq] | [_ (j & Hlt & Hj & _ & Heq)]]; rewrite Heq in Hins; [discriminate|].
  injection Hins as <- <-. unfold take; simpl.
  rewrite decide_True by done.
  rewrite list_lookup_insert_eq by (eapply lookup_lt_Some; eauto).
  rewrite list_insert_insert_eq, list_insert_id by done.
  rewrite delete_insert_id by done. by destruct t.
Qed.

Lemma take_undoes_insert_witness :
  take 0 (insert 3%N new).1 = (new, Some (link_new 3%N)).
Proof.
  apply (take_undoes_insert new _ 3%N 0 reach_new); vm_compute; reflexivity.
Defined.

End LinksExtra.

(** ** Further properties of the relay server *)
Module RelayExtra.
Import Links LinksFacts Relay RelayFacts.

(** What [handle_packet] may do to the server state: nothing, or replace
    the sender's own client by one with the same key, address and port,
    whose link table is unchanged or went through one [Links::insert] or
    one [Links::take]. *)
Lemma handle_packet_state_links now key p s :
  state (handle_packet now key p s).1 = state s \/
  exists c c', connected_clients (state s) !! key = Some c /\
    pk c' = pk c /\ ip_addr c' = ip_addr c /\ port c' = port c /\
    state (handle_packet now key p s).1 = put_client (state s) key c' /\
    (links_of c' = links_of c \/
     (exists r, links_of c' = (Links.insert r (links_of c)).1) \/
     (exists i, links_of c' = (Links.take i (links_of c)).1)).
Proof.
  destruct p; cbn [handle_packet]; try (left; reflexivity).
  - unfold handle_route_request.
    destruct (connected_clients (state s) !! key) as [c|] eqn:Hc; [|left; reflexivity].
    destruct (decide (key = pk0)); [left; reflexivity|].
    destruct (get_connection_id c pk0); [left; reflexivity|].
    unfold insert_connection_id. destruct (Links.insert pk0 (links_of c)) as [l r] eqn:Hins.
    right. exists c, (set_links c l).
    assert (links_of (set_links c l) = (Links.insert pk0 (links_of c)).1) as Hl
      by (simpl; by rewrite Hins).
    destruct r as [bid|]; destruct_opt; simpl; eauto 12.
  - unfold handle_disconnect_notification.
    destruct (connected_clients (state s) !! key) as [c|] eqn:Hc; [|left; reflexivity].
    right. unfold take_link.
    destruct (decide (16 <= connection_id)); [|exists c, c; simpl; eauto 12].
    destruct (Links.take (connection_id - 16) (links_of c)) as [lt r] eqn:Htk.
    exists c, (set_links c lt).
    assert (links_of (set_links c lt) = (Links.take (connection_id - 16) (links_of c)).1) as Hl
      by (simpl; by rewrite Htk).
    destruct r as [lk|]; destruct_opt; simpl; eauto 12.
  - unfold handle_pong_response.
    destruct (decide (ping_id0 = 0%Z)); [left; reflexivity|].
    destruct (connected_clients (state s) !! key) as [c|] eqn:Hc; [|left; reflexivity].
    destruct (decide (ping_id0 = ping_id c)); [|left; reflexivity].
    right. exists c, (set_last_pong_resp c now). simpl; eauto 12.
Qed.

(** In every server reachable from [Server::new()] through [insert]s of
    clients whose link tables are reachable from [Links::new], through
    [handle_packet] and through [shutdown_client], every connected client
    is stored under its own key and its link table stays reachable: it has
    240 slots, agrees with its [pk -> slot] index, and never links the
    same peer in two slots. *)
Theorem client_link_tables_consistent (s : Server) :
  server_reachable_links s ->
  forall p c, connected_clients (state s) !! p = Some c ->
    pk c = p /\ reachable (links_of c) /\
    length (links (links_of c)) = MAX_LINKS_N /\
    (forall q i j, occupies (links_of c) q i -> occupies (links_of c) q j -> i = j).
Proof.
  intros Hr.
  assert (H : forall p c, connected_clients (state s) !! p = Some c ->
                          pk c = p /\ reachable (links_of c)).
  { induction Hr as [sink|s c Hr IH Hc|s now key p Hr IH|s key Hr IH].
    - intros p c H. simpl in H. by rewrite lookup_empty in H.
    - intros p c' H. simpl in H. destruct (decide (p = pk c)) as [->|Hne].
      + rewrite lookup_insert_eq in H. injection H as <-. done.
      + rewrite lookup_insert_ne in H by done. auto.
    - intros q c' H.
      destruct (handle_packet_state_links now key p s)
        as [E|(c & c0 & Hc & Hpk & _ & _ & E & Hl)]; rewrite E in H; [auto|].
      simpl in H. destruct (decide (q = key)) as [->|Hne].
      + rewrite lookup_insert_eq in H. injection H as <-.
        destruct (IH _ _ Hc) as [Hk Hrl]. split; [congruence|].
        destruct Hl as [->|[(r & ->)|(i & ->)]];
          [done|by apply reach_insert|by apply reach_take].
      + rewrite lookup_insert_ne in H by done. auto.
    - intros q c' H. unfold shutdown_client in H.
      pose proof (shutdown_inner_clients key (state s) q) as Hq.
      destruct (shutdown_client_inner key (state s)) as [st' f]. simpl in H, Hq.
      rewrite Hq in H. destruct (decide (q = key)); [discriminate|auto]. }
  intros p c Hc. destruct (H p c Hc) as [Hk Hrl].
  destruct (reachable_inv _ Hrl) as [Hlen Hinv].
  split; [done|]. split; [done|]. split; [done|].
  intros q i j Hi Hj. apply Hinv in Hi, Hj. congruence.
Qed.

Lemma client_link_tables_consistent_witness :
  let s1 := set_state (mkServer empty_state false)
              (server_insert (client_new 1%N (V4 1) 1 0%Z) empty_state) in
  let s2 := (handle_packet 0%Z 1%N (RouteRequest 2%N) s1).1 in
  server_reachable_links s2 /\
  exists c, connected_clients (state s2) !! 1%N = Some c /\ reachable (links_of c).
Proof.
  intros s1 s2.
  assert (R : server_reachable_links s2).
  { apply srl_packet, (srl_insert (mkServer empty_state false)); [apply srl_new|apply reach_new]. }
  split; [exact R|].
  destruct (connected_clients (state s2) !! 1%N) as [c|] eqn:E; [|vm_compute in E; discriminate].
  exists c. split; [reflexivity|].
  exact (proj1 (proj2 (client_link_tables_consistent s2 R 1%N c E))).
Defined.

(** [handle_packet] never adds or removes a client, never changes
    [keys_by_addr] or the onion sink, and changes no client but the
    sender, whose key, address and port stay the same; packets other than
    [RouteRequest], [DisconnectNotification] and [PongResponse] leave the
    server as it was. *)
Theorem handle_packet_frame now key p s :
  let s' := (handle_packet now key p s).1 in
  onion_sink s' = onion_sink s /\
  keys_by_addr (state s') = keys_by_addr (state s) /\
  (forall q, is_Some (connected_clients (state s') !! q) <->
             is_Some (connected_clients (state s) !! q)) /\
  (forall q, q <> key -> connected_clients (state s') !! q = connected_clients (state s) !! q) /\
  (forall c', connected_clients (state s') !! key = Some c' ->
     exists c, connected_clients (state s) !! key = Some c /\
       pk c' = pk c /\ ip_addr c' = ip_addr c /\ port c' = port c) /\
  match p with
  | RouteRequest _ | DisconnectNotification _ | PongResponse _ => True
  | _ => s' = s
  end.
Proof.
  intros s'. split.
  { unfold s'. destruct p; cbn [handle_packet]; try reflexivity.
    - by destruct (handle_route_request key pk0 (state s)).
    - by destruct (handle_disconnect_notification key connection_id (state s)).
    - by destruct (handle_pong_response now key ping_id0 (state s)). }
  split; [|split; [|split; [|split]]].
  - unfold s'. destruct (handle_packet_state now key p s)
      as [->|(c & c' & Hc & _ & _ & _ & ->)]; reflexivity.
  - intros q. unfold s'. destruct (handle_packet_state now key p s)
      as [->|(c & c' & Hc & _ & _ & _ & ->)]; [done|]. simpl.
    destruct (decide (q = key)) as [->|Hne].
    + rewrite lookup_insert_eq, Hc. split; eauto.
    + by rewrite lookup_insert_ne by done.
  - intros q Hne. unfold s'. destruct (handle_packet_state now key p s)
      as [->|(c & c' & Hc & _ & _ & _ & ->)]; [done|]. simpl.
    by rewrite lookup_insert_ne by done.
  - intros c0 H. unfold s' in H. destruct (handle_packet_state now key p s)
      as [E|(c & c' & Hc & Hpk & Hip & Hport & E)]; rewrite E in H.
    + exists c0. auto.
    + simpl in H. rewrite lookup_insert_eq in H. injection H as <-. eauto.
  - unfold s'. destruct p; try exact I; reflexivity.
Qed.

(** Every packet a [handle_packet] future sends goes to a client that is
    connected after the call, and an onion request goes to the sink with
    the sender's own address and port. *)
Theorem handle_packet_sends_to_connected now key p s x :
  x ∈ sends_of (handle_packet now key p s).2 ->
  match x with
  | SendTo to _ _ => is_Some (connected_clients (state (handle_packet now key p s).1) !! to)
  | SendOnion _ ip prt =>
      exists c, connected_clients (state s) !! key = Some c /\ ip = ip_addr c /\ prt = port c
  end.
Proof.
  set (P := fun (s' : Server) (x : Send) => match x with
    | SendTo to _ _ => is_Some (connected_clients (state s') !! to)
    | SendOnion _ ip prt =>
        exists c, connected_clients (state s) !! key = Some c /\ ip = ip_addr c /\ prt = port c
    end).
  change (x ∈ sends_of (handle_packet now key p s).2 -> P (handle_packet now key p s).1 x).
  destruct p; cbn [handle_packet];
    unfold handle_route_request, handle_disconnect_notification, handle_ping_request,
      handle_pong_response, handle_oob_send, handle_onion_request, handle_data,
      insert_connection_id, take_link, fut_ok;
    repeat (match goal with
            | |- context [match ?y with Some _ => _ | None => _ end] => destruct y eqn:?
            | |- context [decide ?Q] => destruct (decide Q)
            | |- context [Links.insert ?a ?b] => destruct (Links.insert a b)
            | |- context [Links.take ?a ?b] => destruct (Links.take a b)
            | |- context [onion_sink ?t] => destruct (onion_sink t)
            end; simpl); intros Hx;
    repeat (apply elem_of_cons in Hx as [->|Hx]); unfold P;
    try (apply elem_of_nil in Hx; contradiction); simpl;
    first [ solve [rewrite lookup_insert_eq; eauto]
          | solve [match goal with H : ?m !! ?k = Some _ |- is_Some (?m !! ?k) => rewrite H; eauto end]
          | solve [subst; eauto] ].
Qed.

Lemma handle_packet_sends_to_connected_witness :
  let s := mkServer (server_insert (client_new 2%N (V4 2) 2 0%Z)
                       (server_insert (client_new 1%N (V4 1) 1 0%Z) empty_state)) false in
  is_Some (connected_clients (state (handle_packet 0%Z 1%N (OobSend 2%N [5%Z]) s).1) !! 2%N).
Proof.
  intros s.
  apply (handle_packet_sends_to_connected 0%Z 1%N (OobSend 2%N [5%Z]) s
           (SendTo 2%N (OobReceive 1%N [5%Z]) IgnoreError)).
  assert (E : (handle_packet 0%Z 1%N (OobSend 2%N [5%Z]) s).2
              = FutSends [SendTo 2%N (OobReceive 1%N [5%Z]) IgnoreError])
    by (vm_compute; reflexivity).
  rewrite E. simpl. apply list_elem_of_singleton. reflexivity.
Defined.

(** A [PongResponse] from a connected client: with the client's current
    nonzero [ping_id] it sets the client's [last_pong_resp] to the current
    time, so the client is not timed out at that time, and changes nothing
    else; any other nonzero id is an error and changes nothing; id 0 is
    always an error.  So a client whose [ping_id] is still 0 (never
    pinged) cannot refresh its timer at all. *)
Theorem pong_response_refreshes now key s c :
  connected_clients (state s) !! key = Some c ->
  (ping_id c <> 0%Z ->
     handle_packet now key (PongResponse (ping_id c)) s
       = (set_state s (put_client (state s) key (set_last_pong_resp c now)), FutSends []) /\
     is_pong_timedout now (set_last_pong_resp c now) = false) /\
  (forall id, id <> 0%Z -> id <> ping_id c ->
     handle_packet now key (PongResponse id) s = (s, FutErr "PongResponse.ping_id does not match")) /\
  handle_packet now key (PongResponse 0) s = (s, FutErr "PongResponse.ping_id == 0") /\
  (ping_id c = 0%Z -> forall id,
     (handle_packet now key (PongResponse id) s).1 = s /\
     exists msg, (handle_packet now key (PongResponse id) s).2 = FutErr msg).
Proof.
  intros Hc. cbn [handle_packet]. unfold handle_pong_response.
  split; [|split; [|split]].
  - intros Hnz. rewrite decide_False by done. rewrite Hc, decide_True by done.
    split; [reflexivity|]. unfold is_pong_timedout, clock_elapsed, from_secs,
      TCP_PING_TIMEOUT, TCP_PING_FREQUENCY; simpl. apply bool_decide_eq_false. lia.
  - intros id Hnz Hne. rewrite decide_False by done. rewrite Hc, decide_False by done.
    by rewrite set_state_same.
  - rewrite decide_True by done. by rewrite set_state_same.
  - intros H0 id. destruct (Z.eq_dec id 0%Z) as [->|Hnz].
    + rewrite decide_True by done. rewrite set_state_same. eauto.
    + rewrite decide_False by done. rewrite Hc, decide_False by congruence.
      rewrite set_state_same. eauto.
Qed.

Lemma pong_response_refreshes_witness :
  let c := mkClient 1%N (V4 1) 1 Links.new 7%Z 0%Z 0%Z in
  let s := mkServer (server_insert c empty_state) false in
  handle_packet (from_secs 100) 1%N (PongResponse 7%Z) s
    = (set_state s (put_client (state s) 1%N (set_last_pong_resp c (from_secs 100))), FutSends []).
Proof.
  intros c s.
  refine (proj1 (proj1 (pong_response_refreshes (from_secs 100) 1%N s c _) _));
    [vm_compute; reflexivity | discriminate].
Defined.

(** [Server::shutdown_client] of a client just added by [Server::insert]
    (a fresh [Client::new], whose key and address were not in use) gives
    back the server as it was before the insert and sends nothing; for a
    key that is not connected it is an error and changes nothing. *)
Theorem shutdown_undoes_insert s k ip prt now :
  connected_clients (state s) !! k = None ->
  keys_by_addr (state s) !! (ip, prt) = None ->
  shutdown_client k (set_state s (server_insert (client_new k ip prt now) (state s)))
    = (s, FutSends []) /\
  shutdown_client k s = (s, FutErr "Cannot find client by pk to shutdown it").
Proof.
  intros Hk Ha. unfold shutdown_client, shutdown_client_inner. split.
  - cbn [state set_state server_insert connected_clients keys_by_addr pk ip_addr port
         client_new].
    rewrite lookup_insert_eq. cbn [fst snd connected_clients keys_by_addr ip_addr port].
    rewrite !delete_insert_id by done.
    destruct s as [[m1 m2] sink]. reflexivity.
  - rewrite Hk. cbn [fst snd]. by rewrite set_state_same.
Qed.

Lemma shutdown_undoes_insert_witness :
  shutdown_client 4%N (set_state (mkServer empty_state true)
    (server_insert (client_new 4%N (V6 9) 33445 0%Z) empty_state))
    = (mkServer empty_state true, FutSends []).
Proof.
  refine (proj1 (shutdown_undoes_insert (mkServer empty_state true) 4%N (V6 9) 33445 0%Z _ _));
    reflexivity.
Defined.

(** Servers reached with fresh inserts keep the address index (the same
    induction as for the [keys_by_addr] invariant). *)
Lemma fresh_addr_index s : server_reachable_fresh s -> addr_index_agrees (state s).
Proof.
  induction 1.
  - split; simpl; intros ?? H; by rewrite lookup_empty in H.
  - by apply addr_index_insert_fresh.
  - destruct (handle_packet_state now key p s) as [->|(c & c' & Hc & Hpk & Hip & Hport & ->)];
      [done|]. by eapply addr_index_put_client.
  - by apply addr_index_shutdown.
Qed.

(** [Server::handle_udp_onion_response] in a server reached with fresh
    inserts: a response for the address of a connected client is sent to
    that client; for an address no connected client has, it is an error. *)
Theorem udp_onion_response_routes s :
  server_reachable_fresh s ->
  (forall p c payload, connected_clients (state s) !! p = Some c ->
     handle_udp_onion_response (ip_addr c) (port c) payload s
       = FutSends [SendTo p (OnionResponse payload) Strict]) /\
  (forall ip prt payload,
     (forall p c, connected_clients (state s) !! p = Some c -> (ip_addr c, port c) <> (ip, prt)) ->
     handle_udp_onion_response ip prt payload s
       = FutErr "Cannot find client by ip_addr to send onion response").
Proof.
  intros Hr. destruct (fresh_addr_index s Hr) as [H1 H2]. split.
  - intros p c payload Hc. destruct (H1 _ _ Hc) as [Hpk Ha].
    unfold handle_udp_onion_response. rewrite Ha. simpl. rewrite Hc. by rewrite Hpk.
  - intros ip prt payload Hno. unfold handle_udp_onion_response.
    destruct (keys_by_addr (state s) !! (ip, prt)) as [p|] eqn:E; [|reflexivity].
    destruct (H2 _ _ E) as (c & Hc & Hx). exfalso. by apply (Hno p c).
Qed.

Lemma udp_onion_response_routes_witness :
  let s := set_state (mkServer empty_state true)
             (server_insert (client_new 1%N (V4 7) 33445 0%Z) empty_state) in
  server_reachable_fresh s /\
  handle_udp_onion_response (V4 7) 33445 [1%Z; 2%Z] s
    = FutSends [SendTo 1%N (OnionResponse [1%Z; 2%Z]) Strict].
Proof.
  intros s.
  assert (R : server_reachable_fresh s).
  { apply (srf_insert (mkServer empty_state true)); [apply srf_new|reflexivity|].
    intros p c' H. simpl in H. by rewrite lookup_empty in H. }
  split; [exact R|].
  exact (proj1 (udp_onion_response_routes s R) 1%N (client_new 1%N (V4 7) 33445 0%Z)
           [1%Z; 2%Z] ltac:(vm_compute; reflexivity)).
Defined.

(** [Server::handle_data]: a Data packet from a connected client [a] on
    the wire id of a slot of [a] that holds a link to [b] is relayed to
    [b] under [b]'s wire id for [a] when [b] is connected and links [a]
    back; when [b] does not link [a] it is dropped without error.  A wire
    id below 16 is dropped without error, an unknown sender is an error,
    and the server is never changed. *)
Theorem data_relayed_between_linked_clients now s ka kb a b i l data :
  connected_clients (state s) !! ka = Some a ->
  by_id i (links_of a) = Some l -> link_pk l = kb ->
  connected_clients (state s) !! kb = Some b ->
  (forall j, id_by_pk ka (links_of b) = Some j ->
     handle_packet now ka (Data (i + 16) data) s
       = (s, FutSends [SendTo kb (Data (j + 16) data) Strict])) /\
  (id_by_pk ka (links_of b) = None ->
     handle_packet now ka (Data (i + 16) data) s = (s, FutSends [])) /\
  (forall cid, cid < 16 -> handle_packet now ka (Data cid data) s = (s, FutSends [])).
Proof.
  intros Ha Hl Hpk Hb. cbn [handle_packet]. unfold handle_data. rewrite Ha.
  assert (Hg : get_link a (i + 16) = Some kb).
  { unfold get_link. rewrite decide_True by lia.
    replace (i + 16 - 16) with i by lia. rewrite Hl. simpl. by rewrite Hpk. }
  rewrite Hg, Hb. unfold get_connection_id. split; [|split].
  - intros j Hj. by rewrite Hj.
  - intros Hj. by rewrite Hj.
  - intros cid Hcid. unfold get_link. by rewrite decide_False by lia.
Qed.

Lemma data_relayed_between_linked_clients_witness :
  let a := set_links (client_new 1%N (V4 1) 1 0%Z) (Links.insert 2%N Links.new).1 in
  let b := set_links (client_new 2%N (V4 2) 2 0%Z) (Links.insert 1%N Links.new).1 in
  let s := mkServer (server_insert b (server_insert a empty_state)) false in
  handle_packet 0%Z 1%N (Data 16 [9%Z]) s = (s, FutSends [SendTo 2%N (Data 16 [9%Z]) Strict]).
Proof.
  intros a b s.
  exact (proj1 (data_relayed_between_linked_clients 0%Z s 1%N 2%N a b 0 (link_new 2%N) [9%Z]
    ltac:(vm_compute; reflexivity) ltac:(vm_compute; reflexivity) eq_refl
    ltac:(vm_compute; reflexivity)) 0 ltac:(vm_compute; reflexivity)).
Defined.

End RelayExtra.

(** ** Further properties of the old save-file codec *)

Module CodecExtra.
Import OldFormat CodecFacts.

Lemma pbind_incomplete {A B} (p : Parser A) (f : A -> Parser B) i :
  p i = Incomplete -> pbind p f i = Incomplete.
Proof. intros H. unfold pbind. by rewrite H. Qed.

Lemma pmap_incomplete {A B} (p : Parser A) (f : A -> B) i :
  p i = Incomplete -> pmap p f i = Incomplete.
Proof. intros H. unfold pmap. by rewrite H. Qed.

Lemma flat_map_incomplete {A} (p : Parser bytes) (q : Parser A) i :
  p i = Incomplete -> flat_map p q i = Incomplete.
Proof. intros H. unfold flat_map. by rewrite H. Qed.

Lemma flat_map_error {A} (p : Parser bytes) (q : Parser A) i r o :
  p i = Done r o -> q o = Error -> flat_map p q i = Error.
Proof. intros H Hq. unfold flat_map. by rewrite H, Hq. Qed.

Lemma ptake_short n i : length i < n -> ptake n i = Incomplete.
Proof. intros H. unfold ptake. by rewrite decide_False by lia. Qed.

Lemma mbind_app_list {A B} (f : A -> list B) l1 l2 :
  mbind f (l1 ++ l2) = mbind f l1 ++ mbind f l2.
Proof.
  induction l1 as [|x l1 IH]; [done|].
  change (f x ++ mbind f (l1 ++ l2) = (f x ++ mbind f l1) ++ mbind f l2).
  by rewrite IH, app_assoc.
Qed.

(** [many0] over encoded items followed by input its parser does not
    accept: it stops there, with the items read so far on [Error] and
    with [Incomplete] on [Incomplete]. *)
Lemma many0_prefix_stop {A} (p : Parser A) (enc : A -> bytes) (l : list A) tl :
  (forall x r, x ∈ l -> p (enc x ++ r) = Done r x) ->
  (forall x, x ∈ l -> enc x <> []) ->
  tl <> [] -> (forall r v, p tl <> Done r v) ->
  many0 p (mbind enc l ++ tl) = match p tl with Error => Done tl l | _ => Incomplete end.
Proof.
  intros Hp Hne Htl Hnd. unfold many0.
  assert (forall f, length (mbind enc l ++ tl) < f ->
            many0_fuel f p (mbind enc l ++ tl)
            = match p tl with Error => Done tl l | _ => Incomplete end) as H; [|apply H; lia].
  induction l as [|x l IH]; intros [|f] Hf; try (simpl in Hf; lia).
  - simpl app. destruct tl as [|b tl']; [done|]. cbn [many0_fuel].
    destruct (p (b :: tl')) eqn:E; [exfalso; by eapply Hnd|done|done].
  - change (mbind enc (x :: l)) with (enc x ++ mbind enc l) in Hf |- *.
    rewrite <- app_assoc in Hf |- *. rewrite length_app in Hf.
    pose proof (Hp x (mbind enc l ++ tl) ltac:(set_solver)) as Hx.
    set (rest := mbind enc l ++ tl) in *.
    destruct (enc x) as [|b e] eqn:He; [by destruct (Hne x ltac:(set_solver))|].
    simpl app in Hx |- *. cbn [many0_fuel]. rewrite Hx.
    rewrite decide_False by (intros Heq; apply (f_equal length) in Heq;
                              simpl in Heq; rewrite length_app in Heq; lia).
    rewrite IH; [| | |simpl in Hf; lia].
    + destruct (p tl) eqn:E; [exfalso; by eapply Hnd|done|done].
    + intros y r Hy. apply Hp. set_solver.
    + intros y Hy. apply Hne. set_solver.
Qed.

Lemma ptag2_mismatch {A} x t0 t1 i (k : bytes -> Parser A) :
  [t0; t1] <> [x; 0%Z] -> pbind (ptag [x; 0%Z]) k (t0 :: t1 :: i) = Error.
Proof.
  intros H. apply pbind_error. unfold ptag. cbn [length].
  replace (Nat.min 2 (S (S (length i)))) with 2 by lia.
  rewrite decide_False; [done|]. simpl. exact H.
Qed.

(** The two tag bytes of a section that [Section::from_bytes] knows. *)
Lemma section_unknown_tag t0 t1 rest :
  ~ (t1 = 0%Z /\ t0 ∈ [1; 2; 3; 4; 5; 6; 10; 11; 255]%Z) ->
  section_from_bytes (t0 :: t1 :: rest) = Error.
Proof.
  intros H. unfold section_from_bytes, palt, pmap, nospam_keys_from_bytes,
    dht_state_from_bytes, friends_from_bytes, name_from_bytes, status_msg_from_bytes,
    user_status_from_bytes, tcp_relays_from_bytes, path_nodes_from_bytes, eof_from_bytes.
  repeat (rewrite ptag2_mismatch by (intros Heq; injection Heq as -> ->; apply H;
                                     split; [done|set_solver])).
  reflexivity.
Qed.

Lemma framed_unknown_tag t0 t1 m0 m1 payload more :
  ~ (t1 = 0%Z /\ t0 ∈ [1; 2; 3; 4; 5; 6; 10; 11; 255]%Z) ->
  (Z.of_nat (length payload) + 4 < 2 ^ 32)%Z ->
  framed_section ((gen_le_u32 (Z.of_nat (length payload)) ++ [t0; t1; m0; m1] ++ payload) ++ more)
    = Error.
Proof.
  intros Ht Hl. unfold framed_section. rewrite <- !app_assoc.
  eapply flat_map_error; [|apply (section_unknown_tag t0 t1 (m0 :: m1 :: payload))]; [|done].
  unfold length_data.
  rewrite (pbind_done _ _ _ ([t0; t1; m0; m1] ++ payload ++ more)
             (Z.of_nat (length payload) + 4)%Z).
  - cbv beta. rewrite app_assoc. apply ptake_app. simpl. lia.
  - apply (pmap_done le_u32 (fun len => (len + 4)%Z) _ _ (Z.of_nat (length payload))).
    apply le_u32_gen. lia.
Qed.

Lemma framed_truncated s k :
  wf_section s -> 0 < k < length (section_to_bytes s) ->
  framed_section (take k (section_to_bytes s)) = Incomplete.
Proof.
  intros Hwf Hk. pose proof (section_length_body s Hwf) as Hl.
  pose proof (proj1 Hwf) as Hlen. pose proof (section_length_nonneg s).
  unfold framed_section. apply flat_map_incomplete. unfold length_data.
  destruct (decide (k < 4)) as [Hk4|Hk4].
  - apply pbind_incomplete, pmap_incomplete. unfold le_u32.
    apply pbind_incomplete, ptake_short. rewrite length_take. lia.
  - unfold section_to_bytes, gen_le_u32 in *. rewrite length_app, length_le_bytes in Hk.
    rewrite take_app, length_le_bytes, take_ge by (rewrite length_le_bytes; lia).
    rewrite (pbind_done _ _ _ (take (k - 4) (section_body s)) (section_length s + 4)%Z).
    + cbv beta. apply ptake_short. rewrite length_take. lia.
    + apply (pmap_done le_u32 (fun len => (len + 4)%Z) _ _ (section_length s)).
      apply le_u32_gen. lia.
Qed.

(** [State::from_bytes] after well-formed sections meets a framed section
    whose two tag bytes name no known section: it does not fail, it stops
    there, returning the sections before it and the unparsed rest (that
    section and everything after it, known sections included). *)
Theorem state_stops_at_unknown_section secs t0 t1 m0 m1 payload more :
  Forall wf_section secs ->
  ~ (t1 = 0%Z /\ t0 ∈ [1; 2; 3; 4; 5; 6; 10; 11; 255]%Z) ->
  (Z.of_nat (length payload) + 4 < 2 ^ 32)%Z ->
  let frame := gen_le_u32 (Z.of_nat (length payload)) ++ [t0; t1; m0; m1] ++ payload in
  state_from_bytes (state_to_bytes (mkState secs) ++ frame ++ more)
    = Done (frame ++ more) (mkState secs).
Proof.
  intros Hwf Ht Hl frame. rewrite Forall_forall in Hwf.
  assert (Hf : framed_section (frame ++ more) = Error) by (by apply framed_unknown_tag).
  unfold state_from_bytes, state_to_bytes. cbn [sections]. rewrite <- !app_assoc.
  rewrite (pbind_done _ _ _ _ _ (ptag_app _ _)). cbv beta.
  rewrite (pbind_done _ _ _ _ _ (ptag_app _ _)). cbv beta.
  rewrite (pbind_done _ _ _ (frame ++ more) secs); [reflexivity|].
  rewrite (many0_prefix_stop framed_section section_to_bytes secs (frame ++ more)).
  - by rewrite Hf.
  - intros x r Hx. by apply framed_section_roundtrip, Hwf.
  - intros x _. unfold section_to_bytes, gen_le_u32. cbn [le_bytes app]. discriminate.
  - unfold frame, gen_le_u32. cbn [le_bytes app]. discriminate.
  - intros r v. rewrite Hf. discriminate.
Qed.

Lemma state_stops_at_unknown_section_witness :
  state_from_bytes (state_to_bytes (mkState [SName (mkName [7%Z])])
                    ++ (gen_le_u32 (Z.of_nat (length [9%Z])) ++ [0x0c; 0; 0xce; 0x01]%Z ++ [9%Z])
                    ++ eof_to_bytes)
    = Done ((gen_le_u32 (Z.of_nat (length [9%Z])) ++ [0x0c; 0; 0xce; 0x01]%Z ++ [9%Z])
            ++ eof_to_bytes) (mkState [SName (mkName [7%Z])]).
Proof.
  refine (state_stops_at_unknown_section [SName (mkName [7%Z])] 0x0c 0 0xce 0x01 [9%Z]
            eof_to_bytes _ _ _).
  - repeat constructor; vm_compute; reflexivity.
  - intros [_ Hin]. repeat (apply elem_of_cons in Hin as [Hin|Hin]; [discriminate|]).
    by apply elem_of_nil in Hin.
  - vm_compute. reflexivity.
Defined.

(** A save file cut off inside a section (after well-formed sections,
    anywhere from the first byte of its length prefix to the last byte of
    its body but one) makes [State::from_bytes] report [Incomplete]; it
    never returns the sections read so far as a complete state. *)
Theorem state_truncated_section_incomplete secs s k :
  Forall wf_section secs -> wf_section s -> 0 < k < length (section_to_bytes s) ->
  state_from_bytes (state_to_bytes (mkState secs) ++ take k (section_to_bytes s)) = Incomplete.
Proof.
  intros Hwf Hs Hk. rewrite Forall_forall in Hwf.
  assert (Hf : framed_section (take k (section_to_bytes s)) = Incomplete)
    by (by apply framed_truncated).
  unfold state_from_bytes, state_to_bytes. cbn [sections]. rewrite <- !app_assoc.
  rewrite (pbind_done _ _ _ _ _ (ptag_app _ _)). cbv beta.
  rewrite (pbind_done _ _ _ _ _ (ptag_app _ _)). cbv beta.
  apply pbind_incomplete.
  rewrite (many0_prefix_stop framed_section section_to_bytes secs (take k (section_to_bytes s))).
  - by rewrite Hf.
  - intros x r Hx. by apply framed_section_roundtrip, Hwf.
  - intros x _. unfold section_to_bytes, gen_le_u32. cbn [le_bytes app]. discriminate.
  - intros Hnil. apply (f_equal length) in Hnil. rewrite length_take in Hnil. simpl in Hnil. lia.
  - intros r v. rewrite Hf. discriminate.
Qed.

Lemma state_truncated_section_incomplete_witness :
  state_from_bytes (state_to_bytes (mkState [SEof]) ++ take 6 (section_to_bytes SEof))
    = Incomplete.
Proof.
  apply (state_truncated_section_incomplete [SEof] SEof 6).
  - repeat constructor; vm_compute; reflexivity.
  - split; [vm_compute; reflexivity|exact I].
  - vm_compute. lia.
Defined.

Lemma ptag_prefix_mismatch t u i :
  length u = length t -> u <> t -> ptag t (u ++ i) = Error.
Proof.
  intros Hl Hne. unfold ptag. rewrite length_app.
  replace (Nat.min (length t) (length u + length i)) with (length t) by lia.
  rewrite decide_False; [done|]. rewrite <- Hl at 1. rewrite take_app_length.
  rewrite take_ge by lia. exact Hne.
Qed.

(** [State::from_bytes] checks its 8-byte header: a prefix of it (the
    empty input included) is [Incomplete]; four leading bytes other than
    zeros, or a magic other than [STATE_MAGIC], is an [Error] whatever
    follows; the bare header is a state with no sections. *)
Theorem state_header_checked :
  (forall k, k < 8 -> state_from_bytes (take k ([0; 0; 0; 0]%Z ++ STATE_MAGIC)) = Incomplete) /\
  (forall z m i, length z = 4 -> length m = 4 -> z <> [0; 0; 0; 0]%Z \/ m <> STATE_MAGIC ->
     state_from_bytes (z ++ m ++ i) = Error) /\
  state_from_bytes ([0; 0; 0; 0]%Z ++ STATE_MAGIC) = Done [] (mkState []).
Proof.
  split; [|split].
  - intros k Hk. do 8 (destruct k as [|k]; [vm_compute; reflexivity|]). lia.
  - intros z m i Hz Hm [Hne|Hne]; unfold state_from_bytes.
    + apply pbind_error. by apply ptag_prefix_mismatch.
    + destruct (decide (z = [0; 0; 0; 0]%Z)) as [->|Hz0].
      * rewrite (pbind_done _ _ _ _ _ (ptag_app _ _)). cbv beta.
        apply pbind_error. by apply ptag_prefix_mismatch.
      * apply pbind_error. by apply ptag_prefix_mismatch.
  - vm_compute. reflexivity.
Qed.

Lemma state_header_checked_witness :
  state_from_bytes [] = Incomplete /\
  state_from_bytes ([0; 0; 0; 0] ++ [0x1f; 0x1b; 0xed; 0x16] ++ [1; 2])%Z = Error.
Proof.
  split.
  - exact (proj1 state_header_checked 0 ltac:(lia)).
  - apply (proj1 (proj2 state_header_checked)); [reflexivity|reflexivity|].
    right. discriminate.
Defined.

Lemma length_friend_state_bytes_raw v :
  length (fs_pk v) = PUBLICKEYBYTES -> length (fs_nospam v) = NOSPAMBYTES ->
  length (friend_state_to_bytes v) = FRIENDSTATEBYTES.
Proof.
  intros Hk Hns. unfold friend_state_to_bytes, gen_be_u16.
  rewrite !length_app, !length_rev, !length_le_bytes, !length_resize, Hk, Hns.
  reflexivity.
Qed.

(** A friend name longer than [NAME_LEN]: [FriendState::to_bytes] writes
    its full length after the truncated name buffer, and
    [FriendState::from_bytes] rejects that length. *)
Lemma friend_state_overlong_name v r :
  length (fs_pk v) = PUBLICKEYBYTES -> length (fr_msg v) <= REQUEST_MSG_LEN ->
  NAME_LEN < length (name_bytes (fs_name v)) -> (Z.of_nat (length (name_bytes (fs_name v))) < 65536)%Z ->
  friend_state_from_bytes (friend_state_to_bytes v ++ r) = Error.
Proof.
  destruct v as [fst_ k msg [nm] [sm] us ns seen].
  intros Hk Hmsg Hnm Hnm'; cbn [fs_pk fr_msg fs_name name_bytes] in Hk, Hmsg, Hnm, Hnm'.
  unfold REQUEST_MSG_LEN, NAME_LEN in Hmsg, Hnm.
  unfold friend_state_from_bytes, friend_state_to_bytes, public_key_from_bytes.
  cbn [friend_status fs_pk fr_msg fs_name fs_status_msg user_status fs_nospam last_seen
       name_bytes status_msg_bytes].
  rewrite <- ?app_assoc.
  erewrite pbind_done by apply friend_status_roundtrip. cbv beta.
  do 3 pstep.
  erewrite pbind_done by (apply be_u16_gen; lia). cbv beta.
  erewrite pbind_done
    by (apply pverify_done; [reflexivity|apply bool_decide_eq_true; unfold REQUEST_MSG_LEN; lia]).
  cbv beta. pstep.
  erewrite pbind_done by (apply be_u16_gen; lia). cbv beta.
  apply pbind_error. unfold pverify, pvalue.
  rewrite bool_decide_eq_false_2; [done|]. unfold NAME_LEN. lia.
Qed.

(** [Friends::from_bytes] on the bytes [Friends::to_bytes] writes for a
    list where one friend's name is longer than [NAME_LEN] (the friends
    before it well formed): it stops at that friend without an error,
    keeping only the friends before it; that friend and all after it are
    left unparsed. *)
Theorem friends_stop_at_overlong_name l1 f l2 :
  Forall wf_friend_state l1 ->
  length (fs_pk f) = PUBLICKEYBYTES -> length (fr_msg f) <= REQUEST_MSG_LEN ->
  NAME_LEN < length (name_bytes (fs_name f)) -> (Z.of_nat (length (name_bytes (fs_name f))) < 65536)%Z ->
  length (fs_nospam f) = NOSPAMBYTES ->
  friends_from_bytes (friends_to_bytes (l1 ++ f :: l2))
    = Done (mbind friend_state_to_bytes (f :: l2)) l1.
Proof.
  intros Hwf Hk Hmsg Hnm Hnm' Hns. rewrite Forall_forall in Hwf.
  assert (Herr : flat_map (ptake FRIENDSTATEBYTES) friend_state_from_bytes
                   (mbind friend_state_to_bytes (f :: l2)) = Error).
  { change (mbind friend_state_to_bytes (f :: l2))
      with (friend_state_to_bytes f ++ mbind friend_state_to_bytes l2).
    eapply flat_map_error.
    - apply ptake_app. by apply length_friend_state_bytes_raw.
    - rewrite <- (app_nil_r (friend_state_to_bytes f)). by apply friend_state_overlong_name. }
  unfold friends_from_bytes, friends_to_bytes.
  change (gen_le_u16 0x0003) with [0x03; 0x00]%Z. rewrite <- ?app_assoc.
  do 2 pstep. rewrite mbind_app_list.
  rewrite (many0_prefix_stop _ friend_state_to_bytes l1 (mbind friend_state_to_bytes (f :: l2))).
  - by rewrite Herr.
  - intros x r Hx. eapply flat_map_done.
    + apply ptake_app. by apply length_friend_state_to_bytes, Hwf.
    + rewrite <- (app_nil_r (friend_state_to_bytes x)).
      apply friend_state_roundtrip. by apply Hwf.
  - intros x Hx Hnil. apply (f_equal length) in Hnil.
    rewrite length_friend_state_to_bytes in Hnil by (by apply Hwf). discriminate.
  - intros Hnil. apply (f_equal length) in Hnil.
    change (mbind friend_state_to_bytes (f :: l2))
      with (friend_state_to_bytes f ++ mbind friend_state_to_bytes l2) in Hnil.
    rewrite length_app, length_friend_state_bytes_raw in Hnil by done. discriminate.
  - intros r v. rewrite Herr. discriminate.
Qed.

Lemma friends_stop_at_overlong_name_witness :
  let f := mkFriendState Confirmed (repeat 1%Z 32) [] (mkName (repeat 65%Z 129))
             (mkStatusMsg []) UOnline (repeat 0%Z 4) 0%Z in
  let g := mkFriendState Added (repeat 2%Z 32) [] (mkName [66%Z])
             (mkStatusMsg []) Away (repeat 0%Z 4) 5%Z in
  friends_from_bytes (friends_to_bytes ([g] ++ f :: [g]))
    = Done (mbind friend_state_to_bytes (f :: [g])) [g].
Proof.
  intros f g. apply friends_stop_at_overlong_name.
  - repeat constructor; vm_compute; try reflexivity; try lia; discriminate.
  - reflexivity.
  - vm_compute. lia.
  - vm_compute. lia.
  - vm_compute. reflexivity.
  - reflexivity.
Defined.

(** The [switch!] on the address type byte falls to its default arm. *)
Ltac zmatch_default :=
  repeat (first [ reflexivity | congruence
                | match goal with p : positive |- _ => destruct p end ]).

Lemma old_ip_port_unknown_type b rest :
  b ∉ [2; 10; 130; 138]%Z -> old_ip_port_from_bytes (b :: rest) = Error.
Proof.
  intros Hb. assert (b <> 2 /\ b <> 10 /\ b <> 130 /\ b <> 138)%Z as (H2 & H10 & H130 & H138)
    by (repeat split; intros ->; apply Hb; set_solver).
  unfold old_ip_port_from_bytes, palt, old_ip_port_from_udp_bytes, old_ip_port_from_tcp_bytes.
  rewrite !(pbind_done _ _ _ rest b (le_u8_cons b rest)). cbv beta.
  destruct b as [|p|p]; zmatch_default.
Qed.

(** [TcpRelays::from_bytes] and [PathNodes::from_bytes] on the encoding of
    well-formed nodes followed by a byte that is no address type
    ([2], [10], [130], [138]): they stop there without an error, keeping
    the nodes before it and leaving the rest unparsed. *)
Theorem relay_nodes_stop_at_unknown_ip_type l b rest :
  Forall wf_tcp_udp_packed_node l -> b ∉ [2; 10; 130; 138]%Z ->
  tcp_relays_from_bytes (tcp_relays_to_bytes l ++ b :: rest) = Done (b :: rest) l /\
  path_nodes_from_bytes (path_nodes_to_bytes l ++ b :: rest) = Done (b :: rest) l.
Proof.
  intros Hwf Hb. rewrite Forall_forall in Hwf.
  assert (Herr : tcp_udp_packed_node_from_bytes (b :: rest) = Error)
    by (apply pbind_error; by apply old_ip_port_unknown_type).
  assert (Hm : many0 tcp_udp_packed_node_from_bytes
                 (mbind tcp_udp_packed_node_to_bytes l ++ b :: rest) = Done (b :: rest) l).
  { rewrite (many0_prefix_stop _ tcp_udp_packed_node_to_bytes l (b :: rest)).
    - by rewrite Herr.
    - intros x r Hx. apply tcp_udp_packed_node_roundtrip. by apply Hwf.
    - intros x _. unfold tcp_udp_packed_node_to_bytes, old_ip_port_to_bytes.
      cbn [app]. discriminate.
    - discriminate.
    - intros r v. rewrite Herr. discriminate. }
  split.
  - unfold tcp_relays_from_bytes, tcp_relays_to_bytes.
    change (gen_le_u16 0x000a) with [0x0a; 0x00]%Z. rewrite <- ?app_assoc.
    do 2 pstep. exact Hm.
  - unfold path_nodes_from_bytes, path_nodes_to_bytes.
    change (gen_le_u16 0x000b) with [0x0b; 0x00]%Z. rewrite <- ?app_assoc.
    do 2 pstep. exact Hm.
Qed.

Lemma relay_nodes_stop_at_unknown_ip_type_witness :
  let n := mkTcpUdpPackedNode (mkOldIpPort TCP (V4 [1; 2; 3; 4]%Z) 33445) (repeat 7%Z 32) in
  tcp_relays_from_bytes (tcp_relays_to_bytes [n] ++ [6%Z; 1%Z])
    = Done [6%Z; 1%Z] [n].
Proof.
  intros n.
  refine (proj1 (relay_nodes_stop_at_unknown_ip_type [n] 6%Z [1%Z] _ _)).
  - repeat constructor; vm_compute; try reflexivity; discriminate.
  - intros Hin. repeat (apply elem_of_cons in Hin as [Hin|Hin]; [discriminate|]).
    by apply elem_of_nil in Hin.
Defined.

End CodecExtra.
